(** * Vectorized<float> (AVX2, 8 lanes), the 8x8 transpose microkernel and the
      oneDNN interop shim: a shallow embedding and its verification.

    Sources embedded here:
    - [aten/src/ATen/cpu/vec/vec256/vec256_float.h]
    - [torch/csrc/inductor/aoti_torch/onednn_tensor.cpp]

    A lane is the 32-bit pattern of an IEEE-754 binary32 number, kept as a [Z]
    in [0, 2^32).  A register [__m256] is a record of eight lanes.  The AVX
    intrinsics the header calls are given the lane-wise meaning the
    instruction set reference documents; floating-point comparison and
    subtraction go through the Standard Library's [SpecFloat] at precision
    24, emax 128, in the default rounding mode.  Memory is byte addressed and
    partial, so that an access outside the mapped bytes is visible as
    undefined behaviour.  The byte count of a partial load or store is
    taken in [size_t], modulo [2^64], and the loop bound of [convert] in
    [int64_t], where its overflow is undefined.  Addresses, strides and the
    other sizes are unbounded integers: no call on arrays that fit an
    address space reaches the wrap-around of their arithmetic. *)

From Stdlib Require Import ZArith List Bool Lia String.
From Stdlib Require Import Floats.SpecFloat.
From coqutil Require Import Byte Word.LittleEndianList.
Import ListNotations.

Local Open Scope string_scope.
Local Open Scope list_scope.
Local Open Scope Z_scope.

(* ================================================================== *)
(** * binary32 bit patterns *)
(* ================================================================== *)

Module F32.

Definition prec : Z := 24.
Definition emax : Z := 128.

(** A lane is well formed when it is a 32-bit pattern. *)
Definition wf (x : Z) : Prop := 0 <= x < 2 ^ 32.

Definition sign_bit (x : Z) : bool := Z.testbit x 31.
Definition biased_exp (x : Z) : Z := Z.land (Z.shiftr x 23) 255.
Definition fraction (x : Z) : Z := Z.land x (Z.ones 23).

Definition is_nan (x : Z) : bool :=
  (biased_exp x =? 255) && negb (fraction x =? 0).
Definition is_inf (x : Z) : bool :=
  (biased_exp x =? 255) && (fraction x =? 0).
Definition is_finite (x : Z) : bool := negb (biased_exp x =? 255).

(** Integer significand and unbiased exponent of a finite pattern:
    the number denoted is [(-1)^s * mantissa * 2^exponent]. *)
Definition mantissa (x : Z) : Z :=
  if biased_exp x =? 0 then fraction x else 2 ^ 23 + fraction x.
Definition exponent (x : Z) : Z := Z.max (biased_exp x) 1 - 150.

Definition decode (x : Z) : spec_float :=
  if biased_exp x =? 255 then
    if fraction x =? 0 then S754_infinity (sign_bit x) else S754_nan
  else
    match mantissa x with
    | Z0 => S754_zero (sign_bit x)
    | Zpos m => S754_finite (sign_bit x) m (exponent x)
    | Zneg _ => S754_nan
    end.

Definition sign_mask (s : bool) : Z := if s then Z.shiftl 1 31 else 0.

(** The default NaN produced by an invalid SSE/AVX operation
    ("real indefinite"). *)
Definition default_nan : Z := 0xFFC00000.

Definition encode (f : spec_float) : Z :=
  match f with
  | S754_zero s => sign_mask s
  | S754_infinity s => Z.lor (sign_mask s) 0x7F800000
  | S754_nan => default_nan
  | S754_finite s m e =>
      if Zpos m <? 2 ^ 23
      then Z.lor (sign_mask s) (Zpos m)
      else Z.lor (sign_mask s)
             (Z.lor (Z.shiftl (e + 150) 23) (Zpos m - 2 ^ 23))
  end.

(** A NaN operand is returned with its quiet bit set. *)
Definition quiet (x : Z) : Z := Z.lor x 0x00400000.

(** The numeric value of a pattern that is not a NaN, scaled by [2^149] so
    that it is an integer: a finite pattern denotes [scaled x / 2^149];
    the infinities get [+-2^277], beyond every finite value. Both zeros
    have value 0. *)
Definition magnitude (x : Z) : Z :=
  mantissa x * 2 ^ (Z.max (biased_exp x) 1 - 1).
Definition scaled (x : Z) : Z :=
  if sign_bit x then - magnitude x else magnitude x.

(** Conversion of an integer to [float], round to nearest even. *)
Definition of_Z (n : Z) : Z :=
  encode (binary_normalize prec emax n 0 false).

Definition all_ones : Z := 0xFFFFFFFF.
Definition zero : Z := 0.          (* +0.0f *)
Definition one : Z := 0x3F800000.  (* 1.0f *)
Definition neg_zero : Z := 0x80000000.  (* -0.0f *)

(** Subtraction of one lane, round to nearest even (the MXCSR default). *)
Definition sub (a b : Z) : Z :=
  if is_nan a then quiet a
  else if is_nan b then quiet b
  else match SFsub prec emax (decode a) (decode b) with
       | S754_nan => default_nan
       | r => encode r
       end.

(** MAXPS / MINPS on one lane: the second operand is returned when either
    operand is a NaN and when both compare equal (both zeros included). *)
Definition max (a b : Z) : Z :=
  if SFltb (decode b) (decode a) then a else b.
Definition min (a b : Z) : Z :=
  if SFltb (decode a) (decode b) then a else b.

(** Comparison predicates of VCMPPS that the header uses. *)
Inductive cmp_pred : Set :=
| _CMP_EQ_OQ | _CMP_LT_OS | _CMP_UNORD_Q | _CMP_NEQ_UQ
| _CMP_LT_OQ | _CMP_LE_OQ | _CMP_GE_OQ | _CMP_GT_OQ.

Definition cmp_holds (p : cmp_pred) (c : option comparison) : bool :=
  match p, c with
  | _CMP_EQ_OQ, Some Eq => true
  | _CMP_LT_OS, Some Lt => true
  | _CMP_LT_OQ, Some Lt => true
  | _CMP_LE_OQ, Some (Lt | Eq) => true
  | _CMP_GE_OQ, Some (Gt | Eq) => true
  | _CMP_GT_OQ, Some Gt => true
  | _CMP_UNORD_Q, None => true
  | _CMP_NEQ_UQ, (None | Some Lt | Some Gt) => true
  | _, _ => false
  end.

Definition cmp (p : cmp_pred) (a b : Z) : Z :=
  if cmp_holds p (SFcompare (decode a) (decode b)) then all_ones else 0.

End F32.

(* ================================================================== *)
(** * The 256-bit register and the intrinsics on it *)
(* ================================================================== *)

Record __m256 : Set := Build_m256 {
  ps0 : Z; ps1 : Z; ps2 : Z; ps3 : Z; ps4 : Z; ps5 : Z; ps6 : Z; ps7 : Z
}.

Definition lane (v : __m256) (i : nat) : Z :=
  match i with
  | 0 => ps0 v | 1 => ps1 v | 2 => ps2 v | 3 => ps3 v
  | 4 => ps4 v | 5 => ps5 v | 6 => ps6 v | 7 => ps7 v
  | _ => 0%Z
  end%nat.

Definition tabulate (f : nat -> Z) : __m256 :=
  Build_m256 (f 0%nat) (f 1%nat) (f 2%nat) (f 3%nat)
             (f 4%nat) (f 5%nat) (f 6%nat) (f 7%nat).

Definition lanewise (f : Z -> Z -> Z) (a b : __m256) : __m256 :=
  tabulate (fun i => f (lane a i) (lane b i)).

Definition _mm256_set1_ps (x : Z) : __m256 := tabulate (fun _ => x).
Definition _mm256_setr_ps (e0 e1 e2 e3 e4 e5 e6 e7 : Z) : __m256 :=
  Build_m256 e0 e1 e2 e3 e4 e5 e6 e7.
Definition _mm256_setzero_ps : __m256 := _mm256_set1_ps 0.

(** VBLENDPS: bit [i] of the immediate selects lane [i] of [b]. *)
Definition _mm256_blend_ps (a b : __m256) (imm8 : Z) : __m256 :=
  tabulate (fun i => if Z.testbit imm8 (Z.of_nat i) then lane b i else lane a i).

(** VBLENDVPS: the sign bit of the mask lane selects lane [i] of [b]. *)
Definition _mm256_blendv_ps (a b mask : __m256) : __m256 :=
  tabulate (fun i => if Z.testbit (lane mask i) 31 then lane b i else lane a i).

Definition _mm256_cmp_ps (a b : __m256) (p : F32.cmp_pred) : __m256 :=
  lanewise (F32.cmp p) a b.

Definition _mm256_and_ps : __m256 -> __m256 -> __m256 := lanewise Z.land.
Definition _mm256_or_ps : __m256 -> __m256 -> __m256 := lanewise Z.lor.
Definition _mm256_xor_ps : __m256 -> __m256 -> __m256 := lanewise Z.lxor.
Definition _mm256_sub_ps : __m256 -> __m256 -> __m256 := lanewise F32.sub.
Definition _mm256_max_ps : __m256 -> __m256 -> __m256 := lanewise F32.max.
Definition _mm256_min_ps : __m256 -> __m256 -> __m256 := lanewise F32.min.

(** The cast only reinterprets the 256 bits. *)
Definition _mm256_castps_si256 (v : __m256) : __m256 := v.

(** VPMOVMSKB: bit [4*i + k] of the result is the top bit of byte [k] of
    lane [i]. *)
Definition msb_of_byte (v : __m256) (n : nat) : bool :=
  Z.testbit (lane v (n / 4)) (8 * Z.of_nat (n mod 4) + 7).

Fixpoint bits_to_Z (bs : list bool) : Z :=
  match bs with
  | [] => 0
  | b :: bs' => Z.b2z b + 2 * bits_to_Z bs'
  end.

Definition _mm256_movemask_epi8 (v : __m256) : Z :=
  bits_to_Z (map (msb_of_byte v) (seq 0 32)).

(** VUNPCKLPS / VUNPCKHPS: interleave within each 128-bit half. *)
Definition _mm256_unpacklo_ps (a b : __m256) : __m256 :=
  Build_m256 (ps0 a) (ps0 b) (ps1 a) (ps1 b) (ps4 a) (ps4 b) (ps5 a) (ps5 b).
Definition _mm256_unpackhi_ps (a b : __m256) : __m256 :=
  Build_m256 (ps2 a) (ps2 b) (ps3 a) (ps3 b) (ps6 a) (ps6 b) (ps7 a) (ps7 b).

(** VSHUFPS: two lanes of [a] then two lanes of [b], in each 128-bit half,
    chosen by the four 2-bit fields of the immediate. *)
Definition select4 (x0 x1 x2 x3 : Z) (control : Z) : Z :=
  match Z.land control 3 with
  | 0 => x0 | 1 => x1 | 2 => x2 | _ => x3
  end.

Definition _mm256_shuffle_ps (a b : __m256) (imm8 : Z) : __m256 :=
  Build_m256
    (select4 (ps0 a) (ps1 a) (ps2 a) (ps3 a) imm8)
    (select4 (ps0 a) (ps1 a) (ps2 a) (ps3 a) (Z.shiftr imm8 2))
    (select4 (ps0 b) (ps1 b) (ps2 b) (ps3 b) (Z.shiftr imm8 4))
    (select4 (ps0 b) (ps1 b) (ps2 b) (ps3 b) (Z.shiftr imm8 6))
    (select4 (ps4 a) (ps5 a) (ps6 a) (ps7 a) imm8)
    (select4 (ps4 a) (ps5 a) (ps6 a) (ps7 a) (Z.shiftr imm8 2))
    (select4 (ps4 b) (ps5 b) (ps6 b) (ps7 b) (Z.shiftr imm8 4))
    (select4 (ps4 b) (ps5 b) (ps6 b) (ps7 b) (Z.shiftr imm8 6)).

(** VPERM2F128: each 128-bit half of the result is one of the four halves
    of [a] and [b], or zero when bit 3 of its control nibble is set. *)
Definition half128 : Set := (Z * Z * Z * Z)%type.
Definition lo128 (v : __m256) : half128 := (ps0 v, ps1 v, ps2 v, ps3 v).
Definition hi128 (v : __m256) : half128 := (ps4 v, ps5 v, ps6 v, ps7 v).

Definition select_half (a b : __m256) (control : Z) : half128 :=
  if Z.testbit control 3 then (0, 0, 0, 0)
  else match Z.land control 3 with
       | 0 => lo128 a | 1 => hi128 a | 2 => lo128 b | _ => hi128 b
       end.

Definition _mm256_permute2f128_ps (a b : __m256) (imm8 : Z) : __m256 :=
  let '(x0, x1, x2, x3) := select_half a b imm8 in
  let '(x4, x5, x6, x7) := select_half a b (Z.shiftr imm8 4) in
  Build_m256 x0 x1 x2 x3 x4 x5 x6 x7.

(* ================================================================== *)
(** * Results of calls that can fail *)
(* ================================================================== *)

(** A call either finishes in a state with a value, or throws a
    [c10::Error] carrying its message and leaving the state it was raised
    in, or has undefined behaviour (an access outside the mapped memory or
    outside a local array, a shift by a negative amount).  [OutOfFuel] is
    the only artefact of the embedding: a loop that was given too few
    steps. *)
Inductive result (S A : Type) : Type :=
| Ok (s : S) (a : A)
| Throw (msg : string) (s : S)
| Undefined
| OutOfFuel.

Arguments Ok {S A} s a.
Arguments Throw {S A} msg s.
Arguments Undefined {S A}.
Arguments OutOfFuel {S A}.

Definition bind {S A B} (r : result S A) (k : S -> A -> result S B)
  : result S B :=
  match r with
  | Ok s a => k s a
  | Throw msg s => Throw msg s
  | Undefined => Undefined
  | OutOfFuel => OutOfFuel
  end.

(** Modelled from the spec: the macro [TORCH_CHECK] (c10/util/Exception.h)
    is not among the sources; a failed check is "a reported precondition
    failure", raised before anything after it runs. *)
Definition TORCH_CHECK {S A} (cond : bool) (msg : string) (s : S)
    (rest : result S A) : result S A :=
  if cond then rest else Throw msg s.

(** [for (i = start; i < start + count; ++i) s = body i s]. *)
Fixpoint for_range {S : Type} (count start : nat) (body : nat -> S -> S)
    (s : S) : S :=
  match count with
  | O => s
  | Datatypes.S c => for_range c (Datatypes.S start) body (body start s)
  end.

Fixpoint for_range_opt {S : Type} (count start : nat)
    (body : nat -> S -> option S) (s : S) : option S :=
  match count with
  | O => Some s
  | Datatypes.S c =>
      match body start s with
      | Some s' => for_range_opt c (Datatypes.S start) body s'
      | None => None
      end
  end.

(* ================================================================== *)
(** * Byte-addressed memory *)
(* ================================================================== *)

Module Mem.

(** An address is mapped to a byte or is not accessible. *)
Definition mem : Type := Z -> option byte.

Definition sizeof_float : Z := 4.

(** [&p[k]] for [float* p]. *)
Definition index (p k : Z) : Z := p + sizeof_float * k.

Fixpoint read_bytes (m : mem) (p : Z) (n : nat) : option (list byte) :=
  match n with
  | O => Some []
  | Datatypes.S k =>
      match m p, read_bytes m (p + 1) k with
      | Some b, Some bs => Some (b :: bs)
      | _, _ => None
      end
  end.

Definition write_byte (m : mem) (p : Z) (b : byte) : option mem :=
  match m p with
  | Some _ => Some (fun a => if a =? p then Some b else m a)
  | None => None
  end.

Fixpoint write_bytes (m : mem) (p : Z) (bs : list byte) : option mem :=
  match bs with
  | [] => Some m
  | b :: bs' =>
      match write_byte m p b with
      | Some m' => write_bytes m' (p + 1) bs'
      | None => None
      end
  end.

(** One float, little endian. *)
Definition f32_to_bytes (x : Z) : list byte := le_split 4 x.
Definition f32_of_bytes (bs : list byte) : Z := le_combine bs.

Definition load_f32 (m : mem) (p : Z) : option Z :=
  option_map f32_of_bytes (read_bytes m p 4).
Definition store_f32 (m : mem) (p : Z) (x : Z) : option mem :=
  write_bytes m p (f32_to_bytes x).

(** A register as the 32 bytes it occupies in memory, lane 0 first. *)
Definition m256_to_bytes (v : __m256) : list byte :=
  flat_map (fun i => f32_to_bytes (lane v i)) (seq 0 8).
Definition m256_of_bytes (bs : list byte) : __m256 :=
  tabulate (fun i => f32_of_bytes (firstn 4 (skipn (4 * i) bs))).

End Mem.

Import Mem.

(** Unaligned full-width load and store on memory. *)
Definition _mm256_loadu_ps (m : mem) (p : Z) : option __m256 :=
  option_map m256_of_bytes (read_bytes m p 32).
Definition _mm256_storeu_ps (m : mem) (p : Z) (v : __m256) : option mem :=
  write_bytes m p (m256_to_bytes v).

(** The same on a local [float[8]] array, held as its 32 bytes. *)
Definition local_loadu_ps (arr : list byte) : __m256 := m256_of_bytes arr.
Definition local_storeu_ps (arr : list byte) (v : __m256) : list byte :=
  m256_to_bytes v ++ skipn 32 arr.
Definition local_set_f32 (arr : list byte) (i : nat) (x : Z) : list byte :=
  firstn (4 * i) arr ++ f32_to_bytes x ++ skipn (4 * i + 4) arr.
Definition local_get_f32 (arr : list byte) (i : nat) : Z :=
  f32_of_bytes (firstn 4 (skipn (4 * i) arr)).

(** VANDNPS: [(NOT a) AND b], bit by bit. *)
Definition _mm256_andnot_ps : __m256 -> __m256 -> __m256 :=
  lanewise (fun x y => Z.land (Z.lnot x) y).

(** VMOVMSKPS: bit [i] of the result is the sign bit of lane [i]. *)
Definition _mm256_movemask_ps (v : __m256) : Z :=
  bits_to_Z (List.map (fun i => Z.testbit (lane v i) 31) (seq 0 8)).

(** VMOVUPS with a zeroing mask: lane [i] is read only when bit [i] of [k]
    is set, a masked-off lane is zero and never faults. *)
Definition option_tabulate (f : nat -> option Z) : option __m256 :=
  match f 0%nat, f 1%nat, f 2%nat, f 3%nat, f 4%nat, f 5%nat, f 6%nat, f 7%nat with
  | Some x0, Some x1, Some x2, Some x3, Some x4, Some x5, Some x6, Some x7 =>
      Some (Build_m256 x0 x1 x2 x3 x4 x5 x6 x7)
  | _, _, _, _, _, _, _, _ => None
  end.

Definition _mm256_maskz_loadu_ps (k : Z) (m : mem) (p : Z) : option __m256 :=
  option_tabulate (fun i =>
    if Z.testbit k (Z.of_nat i) then load_f32 m (index p (Z.of_nat i))
    else Some 0).

(** VMOVUPS with a write mask: lane [i] is written only when bit [i] of [k]
    is set, a masked-off lane is not touched and never faults. *)
Definition _mm256_mask_storeu_ps (m : mem) (p : Z) (k : Z) (v : __m256)
  : option mem :=
  for_range_opt 8 0 (fun i m' =>
    if Z.testbit k (Z.of_nat i)
    then store_f32 m' (index p (Z.of_nat i)) (lane v i)
    else Some m') m.

(* ================================================================== *)
(** * Integer types of the target *)
(* ================================================================== *)

(** [size_t] is an unsigned 64-bit integer: the conversion of an [int64_t]
    to it and its product are taken modulo [2 ^ 64]. *)
Definition to_size_t (x : Z) : Z := x mod 2 ^ 64.
Definition size_t_mul (x y : Z) : Z := (x * y) mod 2 ^ 64.

(** The least [int64_t]; arithmetic on [int64_t] that goes below it is
    undefined. *)
Definition int64_min : Z := - 2 ^ 63.

(* ================================================================== *)
(** * Vectorized<float> *)
(* ================================================================== *)

Module Vec.

Definition size : Z := 8.

Definition blend (mask : Z) (a b : __m256) : __m256 :=
  _mm256_blend_ps a b mask.

Definition set (a b : __m256) (count : Z) : __m256 :=
  match count with
  | 0 => a
  | 1 => blend 1 a b
  | 2 => blend 3 a b
  | 3 => blend 7 a b
  | 4 => blend 15 a b
  | 5 => blend 31 a b
  | 6 => blend 63 a b
  | 7 => blend 127 a b
  | _ => b
  end.

(** [loadu(ptr, count)].  [uninit] is whatever the local array
    [tmp_values] holds before it is assigned.  The length
    [count * sizeof(float)] of the [memcpy] is computed in [size_t]; a
    [memcpy] of more than the 32 bytes of the array is undefined, which is
    the case of a count from 9 on whose length does not wrap, and of a
    negative count, which converts to a huge [size_t]. *)
Definition loadu (uninit : nat -> byte) (m : mem) (ptr : Z) (count : Z)
  : option __m256 :=
  if count =? size then _mm256_loadu_ps m ptr
  else
    let tmp_values := map uninit (seq 0 32) in
    let tmp_values :=
      for_range (Z.to_nat size) 0
        (fun i tmp => local_set_f32 tmp i F32.zero) tmp_values in
    let nbytes := size_t_mul (to_size_t count) sizeof_float in
    if 32 <? nbytes then None
    else
      match read_bytes m ptr (Z.to_nat nbytes) with
      | Some bs =>
          let tmp_values := bs ++ skipn (List.length bs) tmp_values in
          Some (local_loadu_ps tmp_values)
      | None => None
      end.

(** [store(ptr, count)].  The length [count * sizeof(float)] of the
    [memcpy] is computed in [size_t]; a copy of more than the 32 bytes of
    the local array is undefined. *)
Definition store (uninit : nat -> byte) (values : __m256) (m : mem)
    (ptr : Z) (count : Z) : option mem :=
  if count =? size then _mm256_storeu_ps m ptr values
  else if count >? 0 then
    let tmp_values := map uninit (seq 0 32) in
    let tmp_values := local_storeu_ps tmp_values values in
    let nbytes := size_t_mul (to_size_t count) sizeof_float in
    if 32 <? nbytes then None
    else write_bytes m ptr (firstn (Z.to_nat nbytes) tmp_values)
  else Some m.

Definition zero_mask_cmp (values : __m256) : __m256 :=
  _mm256_cmp_ps values (_mm256_set1_ps F32.zero) F32._CMP_EQ_OQ.

Definition isnan (values : __m256) : __m256 :=
  _mm256_cmp_ps values (_mm256_set1_ps F32.zero) F32._CMP_UNORD_Q.

Definition has_inf_nan (values : __m256) : bool :=
  let self_sub := _mm256_sub_ps values values in
  negb (Z.land (_mm256_movemask_epi8 (_mm256_castps_si256 self_sub))
               0x77777777 =? 0).

(** [operator==] and its siblings. *)
Definition op_eq (values other : __m256) : __m256 :=
  _mm256_cmp_ps values other F32._CMP_EQ_OQ.
Definition op_ne (values other : __m256) : __m256 :=
  _mm256_cmp_ps values other F32._CMP_NEQ_UQ.
Definition op_lt (values other : __m256) : __m256 :=
  _mm256_cmp_ps values other F32._CMP_LT_OQ.
Definition op_le (values other : __m256) : __m256 :=
  _mm256_cmp_ps values other F32._CMP_LE_OQ.
Definition op_gt (values other : __m256) : __m256 :=
  _mm256_cmp_ps values other F32._CMP_GT_OQ.
Definition op_ge (values other : __m256) : __m256 :=
  _mm256_cmp_ps values other F32._CMP_GE_OQ.

Definition op_sub (a b : __m256) : __m256 := _mm256_sub_ps a b.
Definition op_and (a b : __m256) : __m256 := _mm256_and_ps a b.
Definition op_or (a b : __m256) : __m256 := _mm256_or_ps a b.
Definition op_xor (a b : __m256) : __m256 := _mm256_xor_ps a b.

Definition maximum (a b : __m256) : __m256 :=
  let max := _mm256_max_ps a b in
  let isnan := _mm256_cmp_ps a b F32._CMP_UNORD_Q in
  _mm256_or_ps max isnan.

Definition minimum (a b : __m256) : __m256 :=
  let min := _mm256_min_ps a b in
  let isnan := _mm256_cmp_ps a b F32._CMP_UNORD_Q in
  _mm256_or_ps min isnan.

Definition clamp (a min max : __m256) : __m256 :=
  _mm256_min_ps max (_mm256_max_ps min a).
Definition clamp_max (a max : __m256) : __m256 := _mm256_min_ps max a.
Definition clamp_min (a min : __m256) : __m256 := _mm256_max_ps min a.

Definition eq (values other : __m256) : __m256 :=
  op_and (op_eq values other) (_mm256_set1_ps F32.one).
Definition ne (values other : __m256) : __m256 :=
  op_and (op_ne values other) (_mm256_set1_ps F32.one).
Definition gt (values other : __m256) : __m256 :=
  op_and (op_gt values other) (_mm256_set1_ps F32.one).
Definition ge (values other : __m256) : __m256 :=
  op_and (op_ge values other) (_mm256_set1_ps F32.one).
Definition lt (values other : __m256) : __m256 :=
  op_and (op_lt values other) (_mm256_set1_ps F32.one).
Definition le (values other : __m256) : __m256 :=
  op_and (op_le values other) (_mm256_set1_ps F32.one).

Definition zero_mask (values : __m256) : Z :=
  let cmp := _mm256_cmp_ps values (_mm256_set1_ps F32.zero) F32._CMP_EQ_OQ in
  _mm256_movemask_ps cmp.

Definition abs (values : __m256) : __m256 :=
  let mask := _mm256_set1_ps F32.neg_zero in
  _mm256_andnot_ps mask values.

(** [angle()].  [pi] is the pattern of [c10::pi<float>] and [NAN] that of
    the macro [NAN]; neither is defined in the sources. *)
Definition angle (pi NAN : Z) (values : __m256) : __m256 :=
  let zero_vec := _mm256_set1_ps F32.zero in
  let nan_vec := _mm256_set1_ps NAN in
  let not_nan_mask := _mm256_cmp_ps values values F32._CMP_EQ_OQ in
  let nan_mask := _mm256_cmp_ps not_nan_mask zero_vec F32._CMP_EQ_OQ in
  let pi := _mm256_set1_ps pi in
  let neg_mask := _mm256_cmp_ps values zero_vec F32._CMP_LT_OQ in
  let angle := _mm256_blendv_ps zero_vec pi neg_mask in
  let angle := _mm256_blendv_ps angle nan_vec nan_mask in
  angle.

Definition neg (values : __m256) : __m256 :=
  _mm256_xor_ps (_mm256_set1_ps F32.neg_zero) values.

(** [map(f)]: [store(tmp)] and [loadu(tmp)] are called with the default
    count [size()], hence take their full-width branch, on the local array
    [tmp].  The scalar function [f] acts on the pattern of its argument. *)
Definition map (uninit : nat -> byte) (f : Z -> Z) (values : __m256)
  : __m256 :=
  let tmp := List.map uninit (seq 0 32) in
  let tmp := local_storeu_ps tmp values in
  let tmp :=
    for_range (Z.to_nat size) 0
      (fun i tmp => local_set_f32 tmp i (f (local_get_f32 tmp i))) tmp in
  local_loadu_ps tmp.

(** [igamma(x)] and [igammac(x)]; [calc_igamma] and [calc_igammac]
    (ATen/native/Math.h) are outside the sources. *)
Definition igamma (uninit uninit_x : nat -> byte) (calc_igamma : Z -> Z -> Z)
    (values x : __m256) : __m256 :=
  let tmp := List.map uninit (seq 0 32) in
  let tmp_x := List.map uninit_x (seq 0 32) in
  let tmp := local_storeu_ps tmp values in
  let tmp_x := local_storeu_ps tmp_x x in
  let tmp :=
    for_range (Z.to_nat size) 0
      (fun i tmp =>
         local_set_f32 tmp i
           (calc_igamma (local_get_f32 tmp i) (local_get_f32 tmp_x i))) tmp in
  local_loadu_ps tmp.

Definition igammac (uninit uninit_x : nat -> byte)
    (calc_igammac : Z -> Z -> Z) (values x : __m256) : __m256 :=
  let tmp := List.map uninit (seq 0 32) in
  let tmp_x := List.map uninit_x (seq 0 32) in
  let tmp := local_storeu_ps tmp values in
  let tmp_x := local_storeu_ps tmp_x x in
  let tmp :=
    for_range (Z.to_nat size) 0
      (fun i tmp =>
         local_set_f32 tmp i
           (calc_igammac (local_get_f32 tmp i) (local_get_f32 tmp_x i))) tmp in
  local_loadu_ps tmp.

End Vec.

(** [convert<float>(src, dst, n)]: whole registers while eight floats are
    left, then one float at a time.  The bound [n - size()] of the first
    loop is computed in [int64_t]: below [int64_min] it overflows, which is
    undefined. *)
Fixpoint convert_vector_loop (fuel : nat) (src dst n i : Z) (m : mem)
  : result mem Z :=
  if n - Vec.size <? int64_min then Undefined
  else if i <=? n - Vec.size then
    match fuel with
    | O => OutOfFuel
    | Datatypes.S fuel' =>
        match _mm256_loadu_ps m (index src i) with
        | None => Undefined
        | Some v =>
            match _mm256_storeu_ps m (index dst i) v with
            | None => Undefined
            | Some m' =>
                convert_vector_loop fuel' src dst n (i + Vec.size) m'
            end
        end
    end
  else Ok m i.

Fixpoint convert_scalar_loop (fuel : nat) (src dst n i : Z) (m : mem)
  : result mem unit :=
  if i <? n then
    match fuel with
    | O => OutOfFuel
    | Datatypes.S fuel' =>
        match load_f32 m (index src i) with
        | None => Undefined
        | Some x =>
            match store_f32 m (index dst i) x with
            | None => Undefined
            | Some m' => convert_scalar_loop fuel' src dst n (i + 1) m'
            end
        end
    end
  else Ok m tt.

Definition convert (m : mem) (src dst n : Z) : result mem unit :=
  bind (convert_vector_loop (Z.to_nat n) src dst n 0 m)
       (fun m i => convert_scalar_loop (Z.to_nat n) src dst n i m).

(* ================================================================== *)
(** * The transpose microkernel and the tiled transpose *)
(* ================================================================== *)

Module Transpose.

(** A local array [__m256 x[8]]. *)
Definition array_get (a : list __m256) (i : nat) : __m256 :=
  nth i a _mm256_setzero_ps.

Fixpoint array_set (a : list __m256) (i : nat) (v : __m256)
  : list __m256 :=
  match a, i with
  | [], _ => []
  | _ :: t, O => v :: t
  | h :: t, Datatypes.S i' => h :: array_set t i' v
  end.

(** Lines 548-565: rows [0, M) are loaded, in full when [N == 8] and
    under the mask [(1 << N) - 1], an 8-bit [__mmask8], otherwise; rows
    [M, 8) are zeroed. *)
Definition load_input (input : list __m256) (m : mem) (src ld_src : Z)
    (M N : Z) : option (list __m256) :=
  let loaded :=
    if N =? 8 then
      for_range_opt (Z.to_nat M) 0 (fun i input =>
        option_map (array_set input i)
          (_mm256_loadu_ps m (index src (Z.of_nat i * ld_src)))) input
    else
      let src_mask := (Z.shiftl 1 N - 1) mod 2 ^ 8 in
      for_range_opt (Z.to_nat M) 0 (fun i input =>
        option_map (array_set input i)
          (_mm256_maskz_loadu_ps src_mask m
             (index src (Z.of_nat i * ld_src)))) input in
  option_map
    (for_range (8 - Z.to_nat M) (Z.to_nat M)
       (fun i input => array_set input i _mm256_setzero_ps))
    loaded.

(** Lines 567-594: unpack, shuffle and permute. Returns [temp]. *)
Definition shuffle_network (input temp : list __m256) (M N : Z)
  : list __m256 :=
  let half := Z.to_nat (Z.quot (M + 1) 2) in
  (* unpacking and interleaving 32-bit elements *)
  let temp :=
    for_range half 0 (fun i temp =>
      let temp :=
        array_set temp (2 * i)
          (_mm256_unpacklo_ps (array_get input (2 * i))
                              (array_get input (2 * i + 1))) in
      array_set temp (2 * i + 1)
        (_mm256_unpackhi_ps (array_get input (2 * i))
                            (array_get input (2 * i + 1)))) temp in
  let temp :=
    for_range (8 - 2 * half) (2 * half)
      (fun i temp => array_set temp i _mm256_setzero_ps) temp in
  (* shuffling the 32-bit elements *)
  let input :=
    for_range (Z.to_nat (Z.quot (M + 3) 4)) 0 (fun i input =>
      let input :=
        array_set input (4 * i)
          (_mm256_shuffle_ps (array_get temp (4 * i))
                             (array_get temp (4 * i + 2)) 0x44) in
      let input :=
        array_set input (4 * i + 1)
          (_mm256_shuffle_ps (array_get temp (4 * i))
                             (array_get temp (4 * i + 2)) 0xee) in
      let input :=
        array_set input (4 * i + 2)
          (_mm256_shuffle_ps (array_get temp (4 * i + 1))
                             (array_get temp (4 * i + 3)) 0x44) in
      array_set input (4 * i + 3)
        (_mm256_shuffle_ps (array_get temp (4 * i + 1))
                           (array_get temp (4 * i + 3)) 0xee)) input in
  (* shuffling 128-bit elements *)
  for_range (Z.to_nat N) 0 (fun i temp =>
    if (i <? 4)%nat then
      array_set temp i
        (_mm256_permute2f128_ps (array_get input (4 + i))
                                (array_get input i) 0x02)
    else
      array_set temp i
        (_mm256_permute2f128_ps (array_get input i)
                                (array_get input (i - 4)) 0x13)) temp.

(** Lines 596-606: rows [0, N) of [temp] are stored, in full when
    [M == 8] and under the mask [(1 << M) - 1] otherwise. *)
Definition store_output (temp : list __m256) (m : mem) (dst ld_dst : Z)
    (M N : Z) : option mem :=
  if M =? 8 then
    for_range_opt (Z.to_nat N) 0 (fun i m' =>
      _mm256_storeu_ps m' (index dst (Z.of_nat i * ld_dst))
        (array_get temp i)) m
  else
    let dst_mask := (Z.shiftl 1 M - 1) mod 2 ^ 8 in
    for_range_opt (Z.to_nat N) 0 (fun i m' =>
      _mm256_mask_storeu_ps m' (index dst (Z.of_nat i * ld_dst)) dst_mask
        (array_get temp i)) m.

(** [transpose_mxn_8x8].  [uninit] gives what the two local arrays hold
    before they are assigned.  The loop counter is [unsigned] and is
    compared with the [int] bounds, so a negative [M] or [N] makes a loop
    run off the arrays, and [1 << N] is undefined for a negative [N]. *)
Definition transpose_mxn_8x8 (uninit : nat -> __m256) (m : mem)
    (src ld_src dst ld_dst : Z) (M N : Z) : result mem unit :=
  TORCH_CHECK ((M <=? 8) && (N <=? 8))
    "transpose_mxn<float> expects M, N <= 8." m
    (if (M <? 0) || (N <? 0) then Undefined
     else
       let input := map uninit (seq 0 8) in
       let temp := map uninit (seq 8 8) in
       match load_input input m src ld_src M N with
       | None => Undefined
       | Some input =>
           let temp := shuffle_network input temp M N in
           match store_output temp m dst ld_dst M N with
           | None => Undefined
           | Some m' => Ok m' tt
           end
       end).

(** [for (; i < bound; i += 8) body(i)], returning the counter the loop
    ends with. *)
Fixpoint for_step8 (fuel : nat) (i bound : Z)
    (body : Z -> mem -> result mem unit) (m : mem) : result mem Z :=
  if i <? bound then
    match fuel with
    | O => OutOfFuel
    | Datatypes.S fuel' =>
        bind (body i m) (fun m' _ => for_step8 fuel' (i + 8) bound body m')
    end
  else Ok m i.

(** [transpose_mxn<float>]. [/] of C truncates, hence [Z.quot]. *)
Definition transpose_mxn (uninit : nat -> __m256) (m : mem)
    (src ld_src dst ld_dst : Z) (M N : Z) : result mem unit :=
  let kernel := transpose_mxn_8x8 uninit in
  bind
    (for_step8 (Z.to_nat M) 0 (Z.quot M 8 * 8) (fun i m =>
       bind
         (for_step8 (Z.to_nat N) 0 (Z.quot N 8 * 8) (fun j m =>
            kernel m (index src (i * ld_src + j)) ld_src
                     (index dst (j * ld_dst + i)) ld_dst 8 8) m)
         (fun m j =>
            (* handle remainder j *)
            let nrem := N - j in
            if nrem >? 0 then
              kernel m (index src (i * ld_src + j)) ld_src
                       (index dst (j * ld_dst + i)) ld_dst 8 nrem
            else Ok m tt)) m)
    (fun m i =>
       (* handle remainder i *)
       let mrem := M - i in
       if mrem >? 0 then
         bind
           (for_step8 (Z.to_nat N) 0 (Z.quot N 8 * 8) (fun j m =>
              kernel m (index src (i * ld_src + j)) ld_src
                       (index dst (j * ld_dst + i)) ld_dst mrem 8) m)
           (fun m j =>
              (* handle remainder j *)
              let nrem := N - j in
              kernel m (index src (i * ld_src + j)) ld_src
                       (index dst (j * ld_dst + i)) ld_dst mrem nrem)
       else Ok m tt).

End Transpose.

(* ================================================================== *)
(** * The oneDNN interop shim *)
(* ================================================================== *)

Module OneDNN.
Section Shim.

(** The tensor object model and the process state the native backend
    works on are outside the sources; the shim only passes them on. *)
Variables Tensor IntArrayRef ScalarType Device World : Type.

(** [AT_ONEDNN_ENABLED()], fixed when the library is built. *)
Variable AT_ONEDNN_ENABLED : bool.

(** [at::native::data_ptr_from_mkldnn] and
    [at::native::mkldnn_tensor_from_data_ptr]
    (ATen/native/onednn/MKLDNNCommon.h). *)
Variable native_data_ptr_from_mkldnn : Tensor -> World -> result World Z.
Variable native_mkldnn_tensor_from_data_ptr :
  Z -> IntArrayRef -> ScalarType -> Device -> Z -> Z ->
  World -> result World Tensor.

Definition data_ptr_from_mkldnn (mkldnn_tensor : Tensor) (w : World)
  : result World Z :=
  if AT_ONEDNN_ENABLED then native_data_ptr_from_mkldnn mkldnn_tensor w
  else TORCH_CHECK false "oneDNN build is disabled" w Undefined.

Definition mkldnn_tensor_from_data_ptr (data_ptr : Z) (dims : IntArrayRef)
    (dtype : ScalarType) (device : Device)
    (opaque_metadata opaque_metadata_size : Z) (w : World)
  : result World Tensor :=
  if AT_ONEDNN_ENABLED then
    native_mkldnn_tensor_from_data_ptr
      data_ptr dims dtype device opaque_metadata opaque_metadata_size w
  else TORCH_CHECK false "oneDNN build is disabled" w Undefined.

End Shim.
End OneDNN.

(* ================================================================== *)
(** * Vocabulary of the statements *)
(* ================================================================== *)

(** Two lanes are ordered when neither is a NaN. *)
Definition ordered (x y : Z) : bool :=
  negb (F32.is_nan x) && negb (F32.is_nan y).

(** The [n] bytes from [p] on are accessible. *)
Definition mapped (m : mem) (p n : Z) : Prop :=
  forall k, 0 <= k < n -> m (p + k) <> None.

(** Two float cells that share no byte. *)
Definition cell_disjoint (p q : Z) : Prop :=
  p + sizeof_float <= q \/ q + sizeof_float <= p.

(** A sequence of float stores, first to last. *)
Fixpoint store_list (m : mem) (cells : list (Z * Z)) : option mem :=
  match cells with
  | [] => Some m
  | (p, x) :: rest =>
      match store_f32 m p x with
      | Some m' => store_list m' rest
      | None => None
      end
  end.

(** Row [i] of a block as the kernel loads it: columns below [N] come from
    memory, the others are zero. *)
Definition masked_row (N : Z) (xr : nat -> Z) : __m256 :=
  tabulate (fun j => if Z.of_nat j <? N then xr j else 0).

(** The float stores of one block: row [j] of the destination receives
    column [j] of the source values [x]. *)
Definition block_cells (dst ld_dst : Z) (M N : nat) (x : nat -> nat -> Z)
  : list (Z * Z) :=
  flat_map
    (fun j => map (fun i => (index dst (Z.of_nat j * ld_dst + Z.of_nat i),
                             x i j))
                  (seq 0 M))
    (seq 0 N).

(** The state between two calls of the microkernel inside the tiled
    transpose of [m0]: the cells [P] of the destination hold their final
    value, and nothing outside the destination has changed. *)
Definition tiles_done (m0 : mem) (src ld_src dst ld_dst M N : Z)
    (m : mem) (P : Z -> Z -> Prop) : Prop :=
  (forall a, m a = None <-> m0 a = None) /\
  (forall q,
     (forall i j, 0 <= i < M -> 0 <= j < N ->
        cell_disjoint (index dst (j * ld_dst + i)) q) ->
     load_f32 m q = load_f32 m0 q) /\
  (forall i j, 0 <= i < M -> 0 <= j < N -> P i j ->
     load_f32 m (index dst (j * ld_dst + i))
     = load_f32 m0 (index src (i * ld_src + j))).

(** The state inside [convert] on the memory [m0] once the first [c] floats
    are copied: they are in place, and nothing outside the destination has
    changed. *)
Definition copied (m0 : mem) (src dst n : Z) (m : mem) (c : Z) : Prop :=
  (forall a, m a = None <-> m0 a = None) /\
  (forall q,
     (forall k, 0 <= k < n -> cell_disjoint (index dst k) q) ->
     load_f32 m q = load_f32 m0 q) /\
  (forall k, 0 <= k < c ->
     load_f32 m (index dst k) = load_f32 m0 (index src k)).

(** A 10x3 row-major source at address 1000 with [src[i*3+j] = i*3+j], and
    30 floats of destination at address 2000 holding other bytes. *)
Definition example_10x3 : mem := fun a =>
  if (1000 <=? a) && (a <? 1120) then
    Some (nth (Z.to_nat ((a - 1000) mod 4))
              (f32_to_bytes (F32.of_Z ((a - 1000) / 4))) Byte.x00)
  else if (2000 <=? a) && (a <? 2120) then Some Byte.xff
  else None.

(** Twelve bytes of source at address 0 and twelve of destination at 100. *)
Definition example_buffers : mem := fun a =>
  if (0 <=? a) && (a <? 12) then Some Byte.x2a
  else if (100 <=? a) && (a <? 112) then Some Byte.x00
  else None.
(* ================================================================== *)
(** * Facts about binary32 patterns *)
(* ================================================================== *)

(** Settles a comparison of two signed magnitudes once the order of the
    magnitudes is among the hypotheses. *)
Ltac by_signs x y :=
  destruct (F32.sign_bit x), (F32.sign_bit y);
  first [ apply Z.compare_eq_iff; lia
        | apply Z.compare_lt_iff; lia
        | apply Z.compare_gt_iff; lia ].

Section F32Facts.

Lemma biased_exp_range x : 0 <= F32.biased_exp x < 256.
Proof.
  unfold F32.biased_exp. change 255 with (Z.ones 8).
  rewrite Z.land_ones by lia. apply Z.mod_pos_bound. lia.
Qed.

Lemma fraction_range x : 0 <= F32.fraction x < 2 ^ 23.
Proof.
  unfold F32.fraction. rewrite Z.land_ones by lia.
  apply Z.mod_pos_bound. lia.
Qed.

Lemma mantissa_range x : 0 <= F32.mantissa x < 2 ^ 24.
Proof.
  unfold F32.mantissa. pose proof (fraction_range x).
  destruct (F32.biased_exp x =? 0); lia.
Qed.

Lemma mantissa_normal x :
  F32.biased_exp x <> 0 -> 2 ^ 23 <= F32.mantissa x.
Proof.
  unfold F32.mantissa. pose proof (fraction_range x).
  destruct (Z.eqb_spec (F32.biased_exp x) 0); lia.
Qed.

Lemma magnitude_nonneg x : 0 <= F32.magnitude x.
Proof.
  unfold F32.magnitude. pose proof (mantissa_range x).
  pose proof (biased_exp_range x).
  apply Z.mul_nonneg_nonneg; [lia|]. apply Z.pow_nonneg. lia.
Qed.

Lemma magnitude_zero_iff x : F32.magnitude x = 0 <-> F32.mantissa x = 0.
Proof.
  unfold F32.magnitude. pose proof (biased_exp_range x).
  assert (0 < 2 ^ (Z.max (F32.biased_exp x) 1 - 1))
    by (apply Z.pow_pos_nonneg; lia).
  split; intros; [nia | subst; nia].
Qed.

Lemma magnitude_pos x p : F32.mantissa x = Zpos p -> 0 < F32.magnitude x.
Proof.
  intros H. pose proof (magnitude_nonneg x) as P.
  pose proof (magnitude_zero_iff x) as Zx.
  destruct (Z.eq_dec (F32.magnitude x) 0) as [E|E]; [|lia].
  apply Zx in E. rewrite H in E. discriminate.
Qed.

(** Comparing significands at different exponents. *)
Lemma pow2_scale_lt m1 m2 k1 k2 :
  0 <= m1 < 2 ^ 24 -> 2 ^ 23 <= m2 -> 0 <= k1 < k2 ->
  m1 * 2 ^ k1 < m2 * 2 ^ k2.
Proof.
  intros H1 H2 Hk.
  replace k2 with (k1 + (k2 - k1)) by lia.
  rewrite Z.pow_add_r by lia.
  assert (0 < 2 ^ k1) by (apply Z.pow_pos_nonneg; lia).
  assert (2 ^ 1 <= 2 ^ (k2 - k1)) by (apply Z.pow_le_mono_r; lia).
  change (2 ^ 1) with 2 in *. change (2 ^ 24) with 16777216 in *.
  change (2 ^ 23) with 8388608 in *.
  set (P := 2 ^ k1) in *. set (Q := 2 ^ (k2 - k1)) in *.
  assert (m1 * P <= 16777215 * P)
    by (apply Z.mul_le_mono_nonneg_r; lia).
  assert (P * 2 <= P * Q) by (apply Z.mul_le_mono_nonneg_l; lia).
  assert (8388608 * (P * Q) <= m2 * (P * Q))
    by (apply Z.mul_le_mono_nonneg_r; lia).
  lia.
Qed.

(** The order [SFcompare] computes on two finite non-zero operands of the
    same sign is the order of their magnitudes. *)
Lemma compare_magnitude x y px py :
  F32.mantissa x = Zpos px -> F32.mantissa y = Zpos py ->
  match F32.exponent x ?= F32.exponent y with
  | Lt => Lt
  | Gt => Gt
  | Eq => Pos.compare_cont Eq px py
  end = (F32.magnitude x ?= F32.magnitude y).
Proof.
  intros Hx Hy. unfold F32.exponent, F32.magnitude.
  pose proof (biased_exp_range x) as Rx.
  pose proof (biased_exp_range y) as Ry.
  pose proof (mantissa_range x) as Mx.
  pose proof (mantissa_range y) as My.
  symmetry.
  destruct (Z.compare_spec (Z.max (F32.biased_exp x) 1 - 150)
                           (Z.max (F32.biased_exp y) 1 - 150)) as [E|L|G].
  - replace (Z.max (F32.biased_exp y) 1 - 1)
      with (Z.max (F32.biased_exp x) 1 - 1) by lia.
    rewrite <- Zmult_compare_compat_r
      by (apply Z.lt_gt, Z.pow_pos_nonneg; lia).
    rewrite Hx, Hy. reflexivity.
  - apply Z.compare_lt_iff. apply pow2_scale_lt; try lia.
    apply mantissa_normal. lia.
  - apply Z.compare_gt_iff. apply pow2_scale_lt; try lia.
    apply mantissa_normal. lia.
Qed.

Lemma magnitude_finite_lt_inf x y :
  F32.biased_exp x <> 255 -> F32.biased_exp y = 255 ->
  F32.magnitude x < F32.magnitude y.
Proof.
  intros Hx Hy. unfold F32.magnitude.
  pose proof (biased_exp_range x) as Rx.
  pose proof (mantissa_range x) as Mx.
  apply pow2_scale_lt; try lia.
  apply mantissa_normal. lia.
Qed.

Lemma magnitude_inf_eq x y :
  F32.is_inf x = true -> F32.is_inf y = true ->
  F32.magnitude x = F32.magnitude y.
Proof.
  unfold F32.is_inf, F32.magnitude, F32.mantissa.
  intros Hx Hy.
  apply andb_true_iff in Hx as [Ex Fx]. apply andb_true_iff in Hy as [Ey Fy].
  apply Z.eqb_eq in Ex, Fx, Ey, Fy. rewrite Ex, Ey, Fx, Fy. reflexivity.
Qed.

(** ** [SFcompare] on decoded patterns is the order of the numeric values *)
Lemma SFcompare_decode x y :
  F32.is_nan x = false -> F32.is_nan y = false ->
  SFcompare (F32.decode x) (F32.decode y)
  = Some (F32.scaled x ?= F32.scaled y).
Proof.
  unfold F32.is_nan. intros Nx Ny.
  pose proof (magnitude_nonneg x) as Px.
  pose proof (magnitude_nonneg y) as Py.
  pose proof (mantissa_range x) as Mx.
  pose proof (mantissa_range y) as My.
  pose proof (magnitude_zero_iff x) as Zx.
  pose proof (magnitude_zero_iff y) as Zy.
  unfold F32.decode, F32.scaled.
  destruct (Z.eqb_spec (F32.biased_exp x) 255) as [Ex|Ex];
  destruct (Z.eqb_spec (F32.biased_exp y) 255) as [Ey|Ey];
  cbn [andb negb] in Nx, Ny.
  - (* inf, inf *)
    apply negb_false_iff in Nx, Ny. rewrite Nx, Ny.
    assert (F32.magnitude x = F32.magnitude y) as E.
    { apply magnitude_inf_eq; unfold F32.is_inf;
        rewrite ?Nx, ?Ny; apply andb_true_iff; split; auto;
        apply Z.eqb_eq; assumption. }
    pose proof (magnitude_finite_lt_inf 0 x) as L.
    assert (0 < F32.magnitude x).
    { eapply Z.le_lt_trans; [apply (magnitude_nonneg 0)|].
      apply L; [vm_compute; discriminate | assumption]. }
    unfold SFcompare. f_equal. symmetry.
    by_signs x y.
  - (* inf, finite *)
    apply negb_false_iff in Nx. rewrite Nx.
    pose proof (magnitude_finite_lt_inf y x Ey Ex) as L.
    assert (SFcompare (S754_infinity (F32.sign_bit x))
              match F32.mantissa y with
              | 0 => S754_zero (F32.sign_bit y)
              | Z.pos m => S754_finite (F32.sign_bit y) m (F32.exponent y)
              | Z.neg _ => S754_nan
              end = Some (if F32.sign_bit x then Lt else Gt)) as ->.
    { destruct (F32.mantissa y); try reflexivity. lia. }
    f_equal. symmetry.
    by_signs x y.
  - (* finite, inf *)
    apply negb_false_iff in Ny. rewrite Ny.
    pose proof (magnitude_finite_lt_inf x y Ex Ey) as L.
    assert (SFcompare
              match F32.mantissa x with
              | 0 => S754_zero (F32.sign_bit x)
              | Z.pos m => S754_finite (F32.sign_bit x) m (F32.exponent x)
              | Z.neg _ => S754_nan
              end (S754_infinity (F32.sign_bit y))
            = Some (if F32.sign_bit y then Gt else Lt)) as ->.
    { destruct (F32.mantissa x); try reflexivity. lia. }
    f_equal. symmetry.
    by_signs x y.
  - (* finite, finite *)
    destruct (F32.mantissa x) as [|px|px] eqn:Hx; [| |lia];
    destruct (F32.mantissa y) as [|py|py] eqn:Hy; try lia.
    + assert (F32.magnitude x = 0) as -> by (apply Zx; reflexivity).
      assert (F32.magnitude y = 0) as -> by (apply Zy; reflexivity).
      destruct (F32.sign_bit x), (F32.sign_bit y); reflexivity.
    + assert (F32.magnitude x = 0) as -> by (apply Zx; reflexivity).
      pose proof (magnitude_pos y py Hy).
      unfold SFcompare. f_equal. symmetry.
      by_signs x y.
    + assert (F32.magnitude y = 0) as -> by (apply Zy; reflexivity).
      pose proof (magnitude_pos x px Hx).
      unfold SFcompare. f_equal. symmetry.
      by_signs x y.
    + pose proof (magnitude_pos x px Hx).
      pose proof (magnitude_pos y py Hy).
      pose proof (compare_magnitude x y px py Hx Hy) as C.
      pose proof (compare_magnitude y x py px Hy Hx) as C'.
      unfold SFcompare. f_equal.
      destruct (F32.sign_bit x), (F32.sign_bit y).
      * rewrite Z.compare_opp.
        rewrite <- C'. rewrite (Z.compare_antisym (F32.exponent x)).
        rewrite (Pos.compare_cont_antisym px py Eq).
        destruct (F32.exponent x ?= F32.exponent y); reflexivity.
      * symmetry. apply Z.compare_lt_iff. lia.
      * symmetry. apply Z.compare_gt_iff. lia.
      * exact C.
Qed.

End F32Facts.

(* ================================================================== *)
(** * What the numeric value means *)
(* ================================================================== *)

Section F32Meaning.

(** [scaled] is the value [SpecFloat] gives the decoded pattern, times
    [2^149]. *)
Lemma scaled_of_finite x s m e :
  F32.decode x = S754_finite s m e ->
  F32.scaled x = (if s then -1 else 1) * (Zpos m * 2 ^ (e + 149)).
Proof.
  unfold F32.decode, F32.scaled, F32.magnitude, F32.exponent.
  destruct (F32.biased_exp x =? 255).
  - destruct (F32.fraction x =? 0); discriminate.
  - destruct (F32.mantissa x) as [|p|p]; try discriminate.
    intros H.
    assert (F32.sign_bit x = s /\ p = m /\
            Z.max (F32.biased_exp x) 1 - 150 = e) as (Hs & Hm & He).
    { revert H.
      generalize (F32.sign_bit x) (Z.max (F32.biased_exp x) 1 - 150).
      clear. intros b z H. injection H as -> -> ->. auto. }
    subst s m e.
    replace (Z.max (F32.biased_exp x) 1 - 150 + 149)
      with (Z.max (F32.biased_exp x) 1 - 1) by lia.
    generalize (2 ^ (Z.max (F32.biased_exp x) 1 - 1)). intros w.
    destruct (F32.sign_bit x); ring.
Qed.

Lemma scaled_of_zero x s : F32.decode x = S754_zero s -> F32.scaled x = 0.
Proof.
  unfold F32.decode, F32.scaled, F32.magnitude.
  destruct (F32.biased_exp x =? 255).
  - destruct (F32.fraction x =? 0); discriminate.
  - destruct (F32.mantissa x) as [|p|p]; try discriminate.
    intros _. destruct (F32.sign_bit x); reflexivity.
Qed.

Lemma scaled_of_infinity x s :
  F32.decode x = S754_infinity s ->
  F32.scaled x = (if s then -1 else 1) * 2 ^ 277.
Proof.
  unfold F32.decode, F32.scaled, F32.magnitude, F32.mantissa.
  destruct (Z.eqb_spec (F32.biased_exp x) 255) as [E|E].
  - rewrite E. destruct (Z.eqb_spec (F32.fraction x) 0) as [F|F];
      [|discriminate].
    rewrite F. intros H.
    assert (F32.sign_bit x = s) as <- by (injection H; auto).
    destruct (F32.sign_bit x); reflexivity.
  - destruct (if F32.biased_exp x =? 0 then F32.fraction x
              else 2 ^ 23 + F32.fraction x); discriminate.
Qed.

Lemma one_is_SFone : F32.decode F32.one = SFone F32.prec F32.emax.
Proof. reflexivity. Qed.

(** A 32-bit pattern is its sign, exponent and fraction fields. *)
Lemma fields_of_pattern x :
  F32.wf x ->
  x = Z.lor (F32.sign_mask (F32.sign_bit x))
        (Z.lor (Z.shiftl (F32.biased_exp x) 23) (F32.fraction x)).
Proof.
  unfold F32.wf, F32.sign_mask, F32.sign_bit, F32.biased_exp, F32.fraction.
  intros W. apply Z.bits_inj'. intros n Hn.
  rewrite !Z.lor_spec, Z.land_spec, Z.shiftl_spec by lia.
  change 255 with (Z.ones 8).
  rewrite Z.testbit_ones_nonneg by lia.
  destruct (Z.ltb_spec n 23) as [L|G].
  - rewrite (Z.testbit_neg_r _ (n - 23)) by lia.
    rewrite andb_true_r, orb_false_l.
    destruct (Z.testbit x 31); [|now rewrite Z.testbit_0_l].
    change (Z.shiftl 1 31) with (2 ^ 31).
    rewrite Z.pow2_bits_eqb by lia.
    destruct (Z.eqb_spec 31 n); [lia|reflexivity].
  - rewrite andb_false_r, orb_false_r.
    rewrite Z.land_spec, Z.shiftr_spec by lia.
    replace (n - 23 + 23) with n by lia.
    rewrite Z.testbit_ones_nonneg by lia.
    destruct (Z.ltb_spec (n - 23) 8) as [L8|G8].
    + rewrite andb_true_r.
      destruct (Z.testbit x 31); [|now rewrite Z.testbit_0_l].
      change (Z.shiftl 1 31) with (2 ^ 31).
      rewrite Z.pow2_bits_eqb by lia.
      destruct (Z.eqb_spec 31 n); [lia|reflexivity].
    + rewrite andb_false_r, orb_false_r.
      destruct (Z.eq_dec n 31) as [->|Hne].
      * destruct (Z.testbit x 31); reflexivity.
      * assert (Z.testbit x n = false) as ->.
        { destruct (Z.eq_dec x 0) as [->|Hx]; [apply Z.testbit_0_l|].
          apply Z.bits_above_log2; [lia|].
          assert (Z.log2 x < 32) by (apply Z.log2_lt_pow2; lia). lia. }
        destruct (Z.testbit x 31); [|now rewrite Z.testbit_0_l].
        change (Z.shiftl 1 31) with (2 ^ 31).
        rewrite Z.pow2_bits_eqb by lia.
        destruct (Z.eqb_spec 31 n); [lia|reflexivity].
Qed.

(** Decoding a pattern that is not a NaN and encoding it again gives the
    pattern back. *)
Lemma encode_decode x :
  F32.wf x -> F32.is_nan x = false -> F32.encode (F32.decode x) = x.
Proof.
  intros W Nn. rewrite (fields_of_pattern x W) at 2.
  unfold F32.is_nan in Nn. unfold F32.decode, F32.mantissa, F32.exponent.
  pose proof (fraction_range x) as RF. pose proof (biased_exp_range x) as RE.
  destruct (Z.eqb_spec (F32.biased_exp x) 255) as [E|E].
  - cbn [andb] in Nn. apply negb_false_iff in Nn. rewrite Nn.
    apply Z.eqb_eq in Nn. rewrite E, Nn. reflexivity.
  - destruct (Z.eqb_spec (F32.biased_exp x) 0) as [E0|E0].
    + rewrite E0. destruct (F32.fraction x) as [|p|p] eqn:F; [| |lia].
      * destruct (F32.sign_bit x); reflexivity.
      * cbn [F32.encode]. destruct (Z.ltb_spec (Z.pos p) (2 ^ 23)); [|lia].
        reflexivity.
    + destruct (2 ^ 23 + F32.fraction x) as [|p|p] eqn:F; [lia| |lia].
      cbn [F32.encode]. destruct (Z.ltb_spec (Z.pos p) (2 ^ 23)); [lia|].
      replace (Z.max (F32.biased_exp x) 1 - 150 + 150)
        with (F32.biased_exp x) by lia.
      replace (Z.pos p - 2 ^ 23) with (F32.fraction x) by lia.
      reflexivity.
Qed.

End F32Meaning.

(* ================================================================== *)
(** * Lanes *)
(* ================================================================== *)

Lemma lane_tabulate f i : (i < 8)%nat -> lane (tabulate f) i = f i.
Proof.
  intros H. do 8 (destruct i as [|i]; [reflexivity|]). lia.
Qed.

Lemma lane_lanewise f a b i :
  (i < 8)%nat -> lane (lanewise f a b) i = f (lane a i) (lane b i).
Proof. intros H. unfold lanewise. now rewrite lane_tabulate. Qed.

Lemma decode_nan x : F32.is_nan x = true -> F32.decode x = S754_nan.
Proof.
  unfold F32.is_nan, F32.decode. intros H.
  apply andb_true_iff in H as [E F]. rewrite E.
  apply negb_true_iff in F. now rewrite F.
Qed.

Lemma SFcompare_nan_r f : SFcompare f S754_nan = None.
Proof. destruct f; reflexivity. Qed.

(** One lane of VCMPPS, in terms of the numeric values. *)
Lemma cmp_lane p x y :
  F32.cmp p x y =
  if F32.cmp_holds p
       (if F32.is_nan x || F32.is_nan y then None
        else Some (F32.scaled x ?= F32.scaled y))
  then F32.all_ones else 0.
Proof.
  unfold F32.cmp.
  destruct (F32.is_nan x) eqn:Nx.
  - rewrite (decode_nan x Nx). reflexivity.
  - destruct (F32.is_nan y) eqn:Ny.
    + rewrite (decode_nan y Ny), SFcompare_nan_r. reflexivity.
    + rewrite SFcompare_decode by assumption. reflexivity.
Qed.

Lemma max_lane x y :
  F32.is_nan x = false -> F32.is_nan y = false ->
  F32.max x y = if F32.scaled y <? F32.scaled x then x else y.
Proof.
  intros Nx Ny. unfold F32.max, SFltb.
  rewrite SFcompare_decode by assumption. unfold Z.ltb.
  destruct (F32.scaled y ?= F32.scaled x); reflexivity.
Qed.

Lemma min_lane x y :
  F32.is_nan x = false -> F32.is_nan y = false ->
  F32.min x y = if F32.scaled x <? F32.scaled y then x else y.
Proof.
  intros Nx Ny. unfold F32.min, SFltb.
  rewrite SFcompare_decode by assumption. unfold Z.ltb.
  destruct (F32.scaled x ?= F32.scaled y); reflexivity.
Qed.

Lemma is_nan_lor_all_ones r : F32.is_nan (Z.lor r F32.all_ones) = true.
Proof.
  unfold F32.is_nan, F32.biased_exp, F32.fraction, F32.all_ones.
  change 0xFFFFFFFF with (Z.ones 32). change 255 with (Z.ones 8).
  assert (Z.land (Z.shiftr (Z.lor r (Z.ones 32)) 23) (Z.ones 8) = Z.ones 8) as ->.
  { apply Z.bits_inj'. intros n Hn.
    rewrite Z.land_spec, Z.shiftr_spec, Z.lor_spec by lia.
    rewrite !Z.testbit_ones_nonneg by lia.
    destruct (Z.ltb_spec n 8); destruct (Z.ltb_spec (n + 23) 32);
      try lia; rewrite ?orb_true_r, ?andb_false_r; reflexivity. }
  assert (Z.land (Z.lor r (Z.ones 32)) (Z.ones 23) = Z.ones 23) as ->.
  { apply Z.bits_inj'. intros n Hn.
    rewrite Z.land_spec, Z.lor_spec.
    rewrite !Z.testbit_ones_nonneg by lia.
    destruct (Z.ltb_spec n 23); destruct (Z.ltb_spec n 32);
      try lia; rewrite ?orb_true_r, ?andb_false_r; reflexivity. }
  reflexivity.
Qed.

(** ** Subtracting a lane from itself *)

Lemma sub_self_finite x : F32.is_finite x = true -> F32.sub x x = 0.
Proof.
  unfold F32.is_finite, F32.sub, F32.is_nan, F32.decode. intros H.
  apply negb_true_iff in H. rewrite H. cbn [andb].
  pose proof (mantissa_range x) as M.
  destruct (F32.mantissa x) as [|m|m]; [| |lia].
  - destruct (F32.sign_bit x); reflexivity.
  - unfold SFsub. rewrite Z.sub_diag. reflexivity.
Qed.

Lemma exp_255_bit23 x : F32.biased_exp x = 255 -> Z.testbit x 23 = true.
Proof.
  unfold F32.biased_exp. intros H.
  assert (Z.testbit (Z.land (Z.shiftr x 23) 255) 0 = true) as T
    by (rewrite H; reflexivity).
  rewrite Z.land_spec, Z.shiftr_spec in T by lia.
  apply andb_true_iff in T as [T _]. exact T.
Qed.

Lemma sub_self_not_finite x :
  F32.is_finite x = false -> Z.testbit (F32.sub x x) 23 = true.
Proof.
  unfold F32.is_finite. intros H. apply negb_false_iff in H.
  unfold F32.sub, F32.is_nan, F32.decode. rewrite H. cbn [andb].
  apply Z.eqb_eq in H.
  destruct (F32.fraction x =? 0); cbn [negb].
  - destruct (F32.sign_bit x); reflexivity.
  - unfold F32.quiet. rewrite Z.lor_spec, (exp_255_bit23 x H). reflexivity.
Qed.

Lemma testbit_bits_to_Z bs n :
  Z.testbit (bits_to_Z bs) (Z.of_nat n) = nth n bs false.
Proof.
  revert n. induction bs as [|b bs IH]; intros n; cbn [bits_to_Z nth].
  - rewrite Z.testbit_0_l. destruct n; reflexivity.
  - rewrite Z.add_comm. destruct n as [|n].
    + apply Z.testbit_0_r.
    + rewrite Nat2Z.inj_succ, Z.testbit_succ_r by lia. apply IH.
Qed.

Lemma is_finite_classes x :
  F32.is_finite x = negb (F32.is_inf x || F32.is_nan x).
Proof.
  unfold F32.is_finite, F32.is_inf, F32.is_nan.
  destruct (F32.biased_exp x =? 255), (F32.fraction x =? 0); reflexivity.
Qed.

(* ================================================================== *)
(** * Comparisons, eq, maximum and minimum *)
(* ================================================================== *)

Lemma op_eq_lane (a b : __m256) (i : nat) :
  (i < 8)%nat ->
  lane (Vec.op_eq a b) i =
    if ordered (lane a i) (lane b i)
       && (F32.scaled (lane a i) =? F32.scaled (lane b i))
    then F32.all_ones else 0.
Proof.
  intros Hi. unfold Vec.op_eq, _mm256_cmp_ps.
  rewrite lane_lanewise, cmp_lane by assumption.
  unfold ordered. rewrite Z.eqb_compare.
  destruct (F32.is_nan (lane a i)), (F32.is_nan (lane b i));
    cbn [orb andb negb F32.cmp_holds]; reflexivity.
Qed.

(** C2. In every lane [i < 8], [==], [<], [<=], [>], [>=] give the all-ones
    mask exactly when neither operand lane is a NaN and the numeric relation
    holds between the two lanes, and the all-zeros mask otherwise; [!=] gives
    the all-ones mask exactly when an operand lane is a NaN or the two lanes
    are numerically unequal. *)
Theorem comparison_masks (a b : __m256) (i : nat) :
  (i < 8)%nat ->
  let x := lane a i in
  let y := lane b i in
  let mask (holds : bool) := if holds then F32.all_ones else 0 in
  lane (Vec.op_eq a b) i = mask (ordered x y && (F32.scaled x =? F32.scaled y)) /\
  lane (Vec.op_lt a b) i = mask (ordered x y && (F32.scaled x <? F32.scaled y)) /\
  lane (Vec.op_le a b) i = mask (ordered x y && (F32.scaled x <=? F32.scaled y)) /\
  lane (Vec.op_gt a b) i = mask (ordered x y && (F32.scaled x >? F32.scaled y)) /\
  lane (Vec.op_ge a b) i = mask (ordered x y && (F32.scaled x >=? F32.scaled y)) /\
  lane (Vec.op_ne a b) i =
    mask (F32.is_nan x || F32.is_nan y || negb (F32.scaled x =? F32.scaled y)).
Proof.
  intros Hi x y mask.
  unfold Vec.op_eq, Vec.op_lt, Vec.op_le, Vec.op_gt, Vec.op_ge, Vec.op_ne,
    _mm256_cmp_ps.
  rewrite !lane_lanewise by assumption. fold x y.
  rewrite !cmp_lane. unfold ordered, mask.
  rewrite Z.eqb_compare. unfold Z.ltb, Z.leb, Z.gtb, Z.geb.
  destruct (F32.is_nan x), (F32.is_nan y); cbn [orb andb negb F32.cmp_holds];
    repeat split; destruct (F32.scaled x ?= F32.scaled y); reflexivity.
Qed.

Lemma comparison_masks_witness :
  let a := _mm256_setr_ps 0x3F800000 0x40000000 0x7FC00000 0x80000000
                          0x7F800000 0xFF800000 0x00000001 0xC0400000 in
  let b := _mm256_setr_ps 0x40000000 0x40000000 0x3F800000 0x00000000
                          0x7F7FFFFF 0xFF7FFFFF 0x00000000 0x7FC00001 in
  (* lane 0: 1.0 against 2.0 *)
  lane (Vec.op_eq a b) 0 = 0 /\
  lane (Vec.op_lt a b) 0 = F32.all_ones /\
  lane (Vec.op_le a b) 0 = F32.all_ones /\
  lane (Vec.op_gt a b) 0 = 0 /\
  lane (Vec.op_ge a b) 0 = 0 /\
  lane (Vec.op_ne a b) 0 = F32.all_ones.
Proof.
  intros a b. exact (comparison_masks a b 0 ltac:(lia)).
Defined.


(** C7. In every lane [i < 8], [eq(a, b)] is exactly [1.0f] when both operand
    lanes are non-NaN and numerically equal, and exactly [0.0f] otherwise. *)
Theorem eq_one_or_zero (a b : __m256) (i : nat) :
  (i < 8)%nat ->
  let x := lane a i in
  let y := lane b i in
  lane (Vec.eq a b) i =
    if ordered x y && (F32.scaled x =? F32.scaled y)
    then F32.one else F32.zero.
Proof.
  intros Hi x y.
  unfold Vec.eq, Vec.op_and, _mm256_and_ps.
  rewrite lane_lanewise, op_eq_lane by assumption.
  unfold _mm256_set1_ps. rewrite lane_tabulate by assumption.
  fold x y.
  destruct (ordered x y && (F32.scaled x =? F32.scaled y)); reflexivity.
Qed.

Lemma eq_one_or_zero_witness :
  lane (Vec.eq (_mm256_set1_ps 0x80000000) (_mm256_set1_ps 0)) 5 = F32.one.
Proof.
  exact (eq_one_or_zero (_mm256_set1_ps 0x80000000) (_mm256_set1_ps 0) 5
           ltac:(lia)).
Defined.


(** X19. In every lane [i < 8]: when an operand lane is a NaN, [maximum] and
    [minimum] hold a NaN (the all-ones pattern, for 32-bit lanes); otherwise
    [maximum] holds the lane of [a] when it is numerically larger than the
    lane of [b] and the lane of [b] if not, and [minimum] holds the lane of
    [a] when it is numerically smaller and the lane of [b] if not. *)
Theorem maximum_minimum_operand (a b : __m256) (i : nat) :
  (i < 8)%nat ->
  let x := lane a i in
  let y := lane b i in
  let mx := lane (Vec.maximum a b) i in
  let mn := lane (Vec.minimum a b) i in
  (F32.is_nan x || F32.is_nan y = true ->
     F32.is_nan mx = true /\ F32.is_nan mn = true /\
     (F32.wf x -> F32.wf y -> mx = F32.all_ones /\ mn = F32.all_ones)) /\
  (F32.is_nan x || F32.is_nan y = false ->
     mx = (if F32.scaled y <? F32.scaled x then x else y) /\
     F32.scaled mx = Z.max (F32.scaled x) (F32.scaled y) /\
     mn = (if F32.scaled x <? F32.scaled y then x else y) /\
     F32.scaled mn = Z.min (F32.scaled x) (F32.scaled y)).
Proof.
  intros Hi x y mx mn.
  unfold mx, mn, Vec.maximum, Vec.minimum, _mm256_or_ps, _mm256_max_ps,
    _mm256_min_ps, _mm256_cmp_ps.
  rewrite !lane_lanewise by assumption. fold x y.
  rewrite cmp_lane.
  split; intros N; rewrite N; cbn [F32.cmp_holds].
  - split; [apply is_nan_lor_all_ones|].
    split; [apply is_nan_lor_all_ones|].
    intros Wx Wy.
    assert (forall w, F32.wf w -> Z.lor w F32.all_ones = F32.all_ones) as L.
    { intros w [W0 W1]. change F32.all_ones with (Z.ones 32).
      destruct (Z.eq_dec w 0) as [->|Nz]; [reflexivity|].
      apply Z.lor_ones_low; [exact W0|].
      apply Z.log2_lt_pow2; lia. }
    split; apply L.
    + unfold F32.max. destruct (SFltb _ _); assumption.
    + unfold F32.min. destruct (SFltb _ _); assumption.
  - apply orb_false_iff in N as [Nx Ny].
    rewrite !Z.lor_0_r, max_lane, min_lane by assumption.
    destruct (Z.ltb_spec (F32.scaled y) (F32.scaled x));
    destruct (Z.ltb_spec (F32.scaled x) (F32.scaled y));
      repeat split; lia.
Qed.

Lemma maximum_minimum_operand_witness :
  let a := _mm256_set1_ps 0x3F800000 in
  let b := _mm256_set1_ps 0xC0400000 in
  lane (Vec.maximum a b) 2 = 0x3F800000 /\
  lane (Vec.minimum a b) 2 = 0xC0400000.
Proof.
  intros a b.
  destruct (maximum_minimum_operand a b 2 ltac:(lia)) as [_ H].
  destruct (H eq_refl) as (Hmax & _ & Hmin & _).
  split; [exact Hmax | exact Hmin].
Defined.



(* ================================================================== *)
(** * set *)
(* ================================================================== *)

(** C5. For [count] in [0, 8], [set(a, b, count)] has the lanes of [b] below
    [count] and the lanes of [a] from [count] on; [set(a, b, 0)] is [a],
    [set(a, b, 8)] is [b], and every [count >= 8] returns [b]. *)
Theorem set_lanes (a b : __m256) (count : Z) :
  0 <= count <= 8 ->
  (forall i, (i < 8)%nat ->
     lane (Vec.set a b count) i =
       if Z.of_nat i <? count then lane b i else lane a i) /\
  Vec.set a b 0 = a /\
  Vec.set a b 8 = b /\
  (forall c, 8 <= c -> Vec.set a b c = b).
Proof.
  intros Hc. repeat split.
  - intros i Hi.
    assert (count = 0 \/ count = 1 \/ count = 2 \/ count = 3 \/ count = 4 \/
            count = 5 \/ count = 6 \/ count = 7 \/ count = 8) as C by lia.
    do 8 (destruct i as [|i]; [
      repeat (destruct C as [C|C]; [subst count; reflexivity|]);
      subst count; reflexivity |]).
    lia.
  - intros c H. destruct c as [|p|p]; try lia.
    do 3 (destruct p as [p|p|]; try reflexivity; try lia).
Qed.

Lemma set_lanes_witness :
  lane (Vec.set (_mm256_setr_ps 10 11 12 13 14 15 16 17)
                (_mm256_setr_ps 20 21 22 23 24 25 26 27) 3) 2%nat = 22 /\
  lane (Vec.set (_mm256_setr_ps 10 11 12 13 14 15 16 17)
                (_mm256_setr_ps 20 21 22 23 24 25 26 27) 3) 3%nat = 13.
Proof.
  pose proof (set_lanes (_mm256_setr_ps 10 11 12 13 14 15 16 17)
                        (_mm256_setr_ps 20 21 22 23 24 25 26 27) 3
                        ltac:(lia)) as [L _].
  split; [apply (L 2%nat) | apply (L 3%nat)]; lia.
Defined.

(* ================================================================== *)
(** * has_inf_nan *)
(* ================================================================== *)

Lemma movemask_bit (v : __m256) (n : nat) :
  (n < 32)%nat ->
  Z.testbit (_mm256_movemask_epi8 v) (Z.of_nat n) = msb_of_byte v n.
Proof.
  intros H. unfold _mm256_movemask_epi8. rewrite testbit_bits_to_Z.
  do 32 (destruct n as [|n]; [reflexivity|]). lia.
Qed.

Lemma has_inf_nan_of_lane (v : __m256) (i : nat) :
  (i < 8)%nat -> F32.is_finite (lane v i) = false ->
  Vec.has_inf_nan v = true.
Proof.
  intros Hi Hf. unfold Vec.has_inf_nan, _mm256_castps_si256.
  apply negb_true_iff, Z.eqb_neq. intros E.
  assert (Z.testbit
            (Z.land (_mm256_movemask_epi8 (_mm256_sub_ps v v)) 0x77777777)
            (Z.of_nat (4 * i + 2)) = true) as T.
  { rewrite Z.land_spec, movemask_bit by lia.
    apply andb_true_iff. split.
    - assert (msb_of_byte (_mm256_sub_ps v v) (4 * i + 2)
              = Z.testbit (lane (_mm256_sub_ps v v) i) 23) as ->
        by (do 8 (destruct i as [|i]; [reflexivity|]); lia).
      unfold _mm256_sub_ps. rewrite lane_lanewise by assumption.
      apply sub_self_not_finite. exact Hf.
    - do 8 (destruct i as [|i]; [reflexivity|]). lia. }
  rewrite E, Z.testbit_0_l in T. discriminate.
Qed.

Lemma has_inf_nan_all_finite (v : __m256) :
  (forall i, (i < 8)%nat -> F32.is_finite (lane v i) = true) ->
  Vec.has_inf_nan v = false.
Proof.
  intros H. unfold Vec.has_inf_nan, _mm256_castps_si256, _mm256_sub_ps,
    lanewise, tabulate.
  rewrite !sub_self_finite by (apply H; lia). reflexivity.
Qed.

(** C6. [has_inf_nan(v)] is true exactly when some lane of [v] is an
    infinity or a NaN; it is false when every lane is finite, a lane of
    negative zeros included. *)
Theorem has_inf_nan_iff (v : __m256) :
  (Vec.has_inf_nan v = true <->
   exists i, (i < 8)%nat /\
             F32.is_inf (lane v i) || F32.is_nan (lane v i) = true) /\
  ((forall i, (i < 8)%nat -> F32.is_finite (lane v i) = true) ->
   Vec.has_inf_nan v = false) /\
  Vec.has_inf_nan (_mm256_set1_ps 0x80000000) = false.
Proof.
  split; [split|split].
  - intros H.
    destruct (forallb (fun i => F32.is_finite (lane v i)) (seq 0 8)) eqn:A.
    + rewrite forallb_forall in A.
      rewrite has_inf_nan_all_finite in H; [discriminate|].
      intros i Hi. apply A. apply in_seq. lia.
    + assert (exists i, In i (seq 0 8) /\ F32.is_finite (lane v i) = false)
        as (i & Hin & Hf).
      { clear H. induction (seq 0 8) as [|k l IH]; [discriminate|].
        cbn [forallb] in A. apply andb_false_iff in A as [A|A].
        - exists k. split; [left; reflexivity | exact A].
        - destruct (IH A) as (i & Hin & Hf). exists i. split; [right|]; auto. }
      exists i. apply in_seq in Hin. split; [lia|].
      rewrite is_finite_classes in Hf. now apply negb_false_iff in Hf.
  - intros (i & Hi & H). apply (has_inf_nan_of_lane v i Hi).
    rewrite is_finite_classes, H. reflexivity.
  - apply has_inf_nan_all_finite.
  - reflexivity.
Qed.

(* ================================================================== *)
(** * Failing calls *)
(* ================================================================== *)

(** C8. [transpose_mxn_8x8] throws exactly when [M > 8] or [N > 8]; the
    error is raised with the memory as it was on entry, so nothing has been
    written, and an oversized block never yields a finished call. *)
Theorem transpose_mxn_8x8_precondition (uninit : nat -> __m256) (m : mem)
    (src ld_src dst ld_dst M N : Z) :
  let call := Transpose.transpose_mxn_8x8 uninit m src ld_src dst ld_dst M N in
  ((exists msg m', call = Throw msg m') <-> (M > 8 \/ N > 8)) /\
  (forall msg m', call = Throw msg m' ->
     m' = m /\ msg = "transpose_mxn<float> expects M, N <= 8.") /\
  (M > 8 \/ N > 8 -> forall m', call <> Ok m' tt).
Proof.
  intros call. unfold call, Transpose.transpose_mxn_8x8, TORCH_CHECK.
  destruct (Z.leb_spec M 8) as [HM|HM]; destruct (Z.leb_spec N 8) as [HN|HN];
    cbn [andb].
  1: { destruct ((M <? 0) || (N <? 0)).
       - repeat split; try discriminate; try lia.
         intros (msg & m' & H); discriminate.
       - destruct (Transpose.load_input _ m src ld_src M N) as [input|];
           [destruct (Transpose.store_output _ m dst ld_dst M N) as [m1|]|];
           repeat split; try discriminate; try lia;
           intros (msg & m' & H); discriminate. }
  all: split;
    [ split; [intros _; lia | intros _; eauto]
    | split; [ intros msg m' H; inversion H; auto
             | intros _ m' H; discriminate ] ].
Qed.

(** C9. With the oneDNN backend compiled out, both entry points throw
    "oneDNN build is disabled" for every input, in the state they were
    called in, and return nothing. *)
Theorem onednn_disabled_throws
    (Tensor IntArrayRef ScalarType Device World : Type)
    (native_data_ptr : Tensor -> World -> result World Z)
    (native_tensor : Z -> IntArrayRef -> ScalarType -> Device -> Z -> Z ->
                     World -> result World Tensor)
    (t : Tensor) (data_ptr : Z) (dims : IntArrayRef) (dtype : ScalarType)
    (device : Device) (opaque_metadata opaque_metadata_size : Z) (w : World) :
  OneDNN.data_ptr_from_mkldnn Tensor World false native_data_ptr t w
    = Throw "oneDNN build is disabled" w /\
  OneDNN.mkldnn_tensor_from_data_ptr Tensor IntArrayRef ScalarType Device
      World false native_tensor
      data_ptr dims dtype device opaque_metadata opaque_metadata_size w
    = Throw "oneDNN build is disabled" w.
Proof. split; reflexivity. Qed.

(** C10. [store(ptr, count)] with [count <= 0] writes nothing: the call
    finishes and the memory is the one it started from. *)
Theorem store_nonpositive_count (uninit : nat -> byte) (v : __m256)
    (m : mem) (ptr count : Z) :
  count <= 0 -> Vec.store uninit v m ptr count = Some m.
Proof.
  intros H. unfold Vec.store, Vec.size.
  destruct (Z.eqb_spec count 8); [lia|].
  destruct (Z.gtb_spec count 0); [lia|]. reflexivity.
Qed.

Lemma store_nonpositive_count_witness :
  Vec.store (fun _ => Byte.x00) (_mm256_set1_ps F32.one)
            (fun _ => None) 64 (-3) = Some (fun _ => None).
Proof. apply store_nonpositive_count. lia. Defined.

(* ================================================================== *)
(** * Reading and writing bytes *)
(* ================================================================== *)

Section Bytes.

Lemma read_bytes_length m n : forall p bs,
  read_bytes m p n = Some bs -> List.length bs = n.
Proof.
  induction n as [|n IH]; intros p bs H; cbn [read_bytes] in H.
  - now inversion H.
  - destruct (m p); [|discriminate].
    destruct (read_bytes m (p + 1) n) eqn:E; [|discriminate].
    inversion H. cbn [List.length]. f_equal. eauto.
Qed.

Lemma read_bytes_nth m n : forall p bs,
  read_bytes m p n = Some bs ->
  forall k, (k < n)%nat -> m (p + Z.of_nat k) = Some (nth k bs Byte.x00).
Proof.
  induction n as [|n IH]; intros p bs H k Hk; [lia|].
  cbn [read_bytes] in H.
  destruct (m p) eqn:Ep; [|discriminate].
  destruct (read_bytes m (p + 1) n) eqn:E; [|discriminate].
  inversion H; subst bs. destruct k as [|k]; cbn [nth].
  - now rewrite Z.add_0_r.
  - rewrite <- (IH _ _ E k) by lia. f_equal. lia.
Qed.

Lemma read_bytes_mapped m n : forall p,
  mapped m p (Z.of_nat n) -> exists bs, read_bytes m p n = Some bs.
Proof.
  induction n as [|n IH]; intros p H; cbn [read_bytes].
  - eauto.
  - destruct (m p) eqn:Ep.
    2:{ exfalso. apply (H 0); [lia|]. now rewrite Z.add_0_r. }
    destruct (IH (p + 1)) as [bs ->]; eauto.
    intros k Hk. replace (p + 1 + k) with (p + (1 + k)) by lia.
    apply H. lia.
Qed.

Lemma read_bytes_ext m m' n : forall p,
  (forall k, 0 <= k < Z.of_nat n -> m' (p + k) = m (p + k)) ->
  read_bytes m' p n = read_bytes m p n.
Proof.
  induction n as [|n IH]; intros p H; cbn [read_bytes]; [reflexivity|].
  pose proof (H 0 ltac:(lia)) as H0. rewrite Z.add_0_r in H0. rewrite H0.
  rewrite (IH (p + 1)); [reflexivity|].
  intros k Hk. replace (p + 1 + k) with (p + (1 + k)) by lia.
  apply H. lia.
Qed.

Lemma write_bytes_spec bs : forall m p,
  mapped m p (Z.of_nat (List.length bs)) ->
  exists m', write_bytes m p bs = Some m' /\
    forall a, m' a =
      if (p <=? a) && (a <? p + Z.of_nat (List.length bs))
      then Some (nth (Z.to_nat (a - p)) bs Byte.x00) else m a.
Proof.
  induction bs as [|b bs IH]; intros m p H; cbn [write_bytes].
  - exists m. split; [reflexivity|]. intros a. cbn [List.length].
    destruct (Z.leb_spec p a), (Z.ltb_spec a (p + Z.of_nat 0));
      cbn [andb]; try reflexivity; lia.
  - unfold write_byte. destruct (m p) eqn:Ep.
    2:{ exfalso. apply (H 0); [cbn [List.length]; lia|].
        now rewrite Z.add_0_r. }
    destruct (IH (fun a => if a =? p then Some b else m a) (p + 1))
      as (m' & W & S).
    { intros k Hk. destruct (Z.eqb_spec (p + 1 + k) p); [discriminate|].
      replace (p + 1 + k) with (p + (1 + k)) by lia.
      apply H. cbn [List.length]. lia. }
    exists m'. split; [exact W|]. intros a. rewrite S.
    cbn [List.length]. rewrite Nat2Z.inj_succ.
    destruct (Z.eqb_spec a p) as [->|Hne].
    + destruct (Z.leb_spec (p + 1) p); [lia|]. cbn [andb].
      destruct (Z.leb_spec p p); [|lia].
      destruct (Z.ltb_spec p (p + Z.succ (Z.of_nat (List.length bs))));
        [|lia].
      cbn [andb]. rewrite Z.sub_diag. reflexivity.
    + destruct (Z.leb_spec (p + 1) a),
        (Z.ltb_spec a (p + 1 + Z.of_nat (List.length bs)));
      destruct (Z.leb_spec p a),
        (Z.ltb_spec a (p + Z.succ (Z.of_nat (List.length bs))));
      cbn [andb]; try lia; try reflexivity.
      replace (Z.to_nat (a - p)) with (Datatypes.S (Z.to_nat (a - (p + 1))))
        by lia. reflexivity.
Qed.

(** A register stored and reloaded byte by byte. *)
Lemma m256_to_of_bytes bs :
  List.length bs = 32%nat -> m256_to_bytes (m256_of_bytes bs) = bs.
Proof.
  intros H.
  do 32 (destruct bs as [|? bs]; [discriminate|]).
  destruct bs; [|discriminate].
  cbv [m256_to_bytes m256_of_bytes tabulate lane flat_map seq
       ps0 ps1 ps2 ps3 ps4 ps5 ps6 ps7 f32_to_bytes f32_of_bytes
       Nat.mul Nat.add firstn skipn].
  rewrite !(split_le_combine' _ 4) by reflexivity.
  reflexivity.
Qed.

Lemma lane_m256_of_bytes bs i :
  (i < 8)%nat ->
  lane (m256_of_bytes bs) i = le_combine (firstn 4 (skipn (4 * i) bs)).
Proof.
  intros H. unfold m256_of_bytes. now rewrite lane_tabulate.
Qed.

End Bytes.

(* ================================================================== *)
(** * loadu and store *)
(* ================================================================== *)

Section PartialIO.

Lemma tmp_values_zeroed (uninit : nat -> byte) :
  for_range (Z.to_nat Vec.size) 0
    (fun i tmp => local_set_f32 tmp i F32.zero) (map uninit (seq 0 32))
  = repeat Byte.x00 32.
Proof. reflexivity. Qed.

(** The byte length of up to eight floats does not wrap in [size_t]. *)
Lemma size_t_length count :
  0 <= count <= 8 ->
  size_t_mul (to_size_t count) sizeof_float = count * sizeof_float.
Proof.
  intros H. unfold size_t_mul, to_size_t, sizeof_float.
  rewrite (Z.mod_small count), Z.mod_small; lia.
Qed.

(** [loadu] reads [4 * count] bytes and pads them with zero bytes. *)
Lemma loadu_bytes uninit m ptr count :
  0 <= count <= 8 ->
  Vec.loadu uninit m ptr count =
    option_map
      (fun bs => m256_of_bytes (bs ++ skipn (List.length bs) (repeat Byte.x00 32)))
      (read_bytes m ptr (Z.to_nat (count * sizeof_float))).
Proof.
  intros H. unfold Vec.loadu.
  destruct (Z.eqb_spec count Vec.size) as [->|Hne].
  - unfold _mm256_loadu_ps. change (Z.to_nat (Vec.size * sizeof_float)) with 32%nat.
    destruct (read_bytes m ptr 32) as [bs|] eqn:E; [|reflexivity].
    cbn [option_map]. rewrite (read_bytes_length _ _ _ _ E).
    cbn [skipn repeat]. now rewrite app_nil_r.
  - cbv zeta. rewrite tmp_values_zeroed, size_t_length by exact H.
    destruct (Z.ltb_spec 32 (count * sizeof_float));
      [unfold sizeof_float in *; lia|].
    destruct (read_bytes m ptr (Z.to_nat (count * sizeof_float)));
      reflexivity.
Qed.

(** [store] writes the first [4 * count] bytes of the register. *)
Lemma store_bytes uninit v m ptr count :
  0 <= count <= 8 ->
  Vec.store uninit v m ptr count =
    write_bytes m ptr
      (firstn (Z.to_nat (count * sizeof_float)) (m256_to_bytes v)).
Proof.
  intros H. unfold Vec.store.
  destruct (Z.eqb_spec count Vec.size) as [->|Hne].
  - unfold _mm256_storeu_ps. reflexivity.
  - unfold Vec.size in *. destruct (Z.gtb_spec count 0).
    + cbv zeta. rewrite size_t_length by exact H.
      destruct (Z.ltb_spec 32 (count * sizeof_float));
        [unfold sizeof_float in *; lia|].
      unfold local_storeu_ps. rewrite firstn_app.
      replace (Z.to_nat (count * sizeof_float) - List.length (m256_to_bytes v))%nat
        with 0%nat by (change (List.length (m256_to_bytes v)) with 32%nat;
                       unfold sizeof_float; lia).
      cbn [firstn]. now rewrite app_nil_r.
    + assert (count = 0) as -> by lia. reflexivity.
Qed.

Lemma padded_length (bs : list byte) :
  (List.length bs <= 32)%nat ->
  List.length (bs ++ skipn (List.length bs) (repeat Byte.x00 32)) = 32%nat.
Proof.
  intros H. rewrite length_app, length_skipn, repeat_length. lia.
Qed.

Lemma skipn_zeros k : forall n,
  skipn k (repeat Byte.x00 n) = repeat Byte.x00 (n - k).
Proof.
  induction k as [|k IH]; intros n.
  - now rewrite Nat.sub_0_r.
  - destruct n; [reflexivity|]. cbn [repeat skipn]. apply IH.
Qed.

Lemma firstn_zeros k : forall n,
  firstn k (repeat Byte.x00 n) = repeat Byte.x00 (Nat.min k n).
Proof.
  induction k as [|k IH]; intros n; [reflexivity|].
  destruct n; [reflexivity|]. cbn [repeat firstn Nat.min]. f_equal. apply IH.
Qed.

Lemma padded_lane_zero (bs : list byte) (i : nat) :
  (i < 8)%nat -> (List.length bs <= 4 * i)%nat ->
  lane (m256_of_bytes (bs ++ skipn (List.length bs) (repeat Byte.x00 32))) i
  = 0.
Proof.
  intros Hi H. rewrite lane_m256_of_bytes by assumption.
  rewrite skipn_app, (skipn_all2 bs) by lia. cbn [app].
  rewrite !skipn_zeros, firstn_zeros.
  apply le_combine_0.
Qed.

(** C4. For [count] in [0, 8], a source of [count] floats and a
    destination of [count] floats: [loadu(ptr, count)] succeeds although
    nothing past [ptr + count] need be accessible, and its result depends
    on no byte outside the source; lanes [count, 8) are [0.0f]; the
    following [store(buf, count)] makes the first [4 * count] bytes of
    [buf] those of the source and leaves every other byte as it was; with
    [count = 0] the memory is unchanged. *)
Theorem loadu_store_roundtrip (u1 u2 : nat -> byte) (m : mem)
    (ptr buf count : Z) :
  0 <= count <= 8 ->
  mapped m ptr (count * sizeof_float) ->
  mapped m buf (count * sizeof_float) ->
  exists v m',
    Vec.loadu u1 m ptr count = Some v /\
    (forall u m2,
       (forall k, 0 <= k < count * sizeof_float ->
                  m2 (ptr + k) = m (ptr + k)) ->
       Vec.loadu u m2 ptr count = Some v) /\
    (forall i, (i < 8)%nat -> count <= Z.of_nat i -> lane v i = F32.zero) /\
    Vec.store u2 v m buf count = Some m' /\
    (forall k, 0 <= k < count * sizeof_float ->
               m' (buf + k) = m (ptr + k)) /\
    (forall a, ~ (buf <= a < buf + count * sizeof_float) -> m' a = m a) /\
    (count = 0 -> m' = m).
Proof.
  intros Hc Hsrc Hdst.
  set (n := Z.to_nat (count * sizeof_float)).
  assert (Z.of_nat n = count * sizeof_float) as Hn
    by (unfold n, sizeof_float; lia).
  destruct (read_bytes_mapped m n ptr) as [bs Hbs];
    [now rewrite Hn|].
  pose proof (read_bytes_length _ _ _ _ Hbs) as Lbs.
  set (v := m256_of_bytes (bs ++ skipn (List.length bs) (repeat Byte.x00 32))).
  assert (firstn n (m256_to_bytes v) = bs) as Hfirst.
  { unfold v. rewrite m256_to_of_bytes
      by (apply padded_length; unfold sizeof_float in *; lia).
    rewrite <- Lbs, firstn_app, Nat.sub_diag, firstn_all. cbn [firstn].
    apply app_nil_r. }
  destruct (write_bytes_spec bs m buf) as (m' & W & S);
    [now rewrite Lbs, Hn|].
  exists v, m'. repeat split.
  - rewrite loadu_bytes by assumption. fold n. now rewrite Hbs.
  - intros u m2 Hagree. rewrite loadu_bytes by assumption. fold n.
    rewrite (read_bytes_ext m m2 n ptr), Hbs; [reflexivity|].
    intros k Hk. apply Hagree. lia.
  - intros i Hi Hle. apply padded_lane_zero; [assumption|].
    unfold sizeof_float in *. lia.
  - rewrite store_bytes by assumption. fold n. now rewrite Hfirst.
  - intros k Hk. rewrite S, Lbs, Hn.
    destruct (Z.leb_spec buf (buf + k)); [|lia].
    destruct (Z.ltb_spec (buf + k) (buf + count * sizeof_float)); [|lia].
    cbn [andb]. replace (buf + k - buf) with k by lia.
    rewrite <- (Z2Nat.id k) at 2 by lia. symmetry.
    apply (read_bytes_nth _ _ _ _ Hbs). lia.
  - intros a Ha. rewrite S, Lbs, Hn.
    destruct (Z.leb_spec buf a);
      destruct (Z.ltb_spec a (buf + count * sizeof_float));
      cbn [andb]; try reflexivity. lia.
  - intros ->. assert (n = 0%nat) as Hz by (unfold n; reflexivity).
    rewrite Hz in Lbs. destruct bs; [|discriminate].
    cbn [write_bytes] in W. now inversion W.
Qed.

Lemma example_buffers_mapped p :
  p = 0 \/ p = 100 -> mapped example_buffers p (3 * sizeof_float).
Proof.
  intros H k Hk. unfold sizeof_float in Hk. unfold example_buffers.
  destruct (Z.leb_spec 0 (p + k)), (Z.ltb_spec (p + k) 12);
    cbn [andb]; try discriminate;
    destruct (Z.leb_spec 100 (p + k)), (Z.ltb_spec (p + k) 112);
    cbn [andb]; try discriminate; lia.
Qed.

Lemma loadu_store_roundtrip_witness :
  exists v m',
    Vec.loadu (fun _ => Byte.xff) example_buffers 0 3 = Some v /\
    (forall i, (i < 8)%nat -> 3 <= Z.of_nat i -> lane v i = F32.zero) /\
    Vec.store (fun _ => Byte.xff) v example_buffers 100 3 = Some m' /\
    (forall k, 0 <= k < 12 -> m' (100 + k) = example_buffers (0 + k)) /\
    (forall a, ~ (100 <= a < 112) -> m' a = example_buffers a).
Proof.
  destruct (loadu_store_roundtrip (fun _ => Byte.xff) (fun _ => Byte.xff)
              example_buffers 0 100 3)
    as (v & m' & L & _ & Z & S & C & F & _).
  - lia.
  - apply example_buffers_mapped. now left.
  - apply example_buffers_mapped. now right.
  - exists v, m'. repeat split; auto.
Defined.

End PartialIO.

(* ================================================================== *)
(** * Float cells *)
(* ================================================================== *)

Section Cells.

Lemma index_index p k j : index (index p k) j = index p (k + j).
Proof. unfold index, sizeof_float. lia. Qed.

Lemma write_bytes_mapped bs : forall m p m',
  write_bytes m p bs = Some m' -> mapped m p (Z.of_nat (List.length bs)).
Proof.
  induction bs as [|b bs IH]; intros m p m' H k Hk;
    cbn [List.length] in Hk; [lia|].
  cbn [write_bytes] in H. unfold write_byte in H.
  destruct (m p) eqn:Ep; [|discriminate].
  destruct (Z.eq_dec k 0) as [->|Hk0].
  - rewrite Z.add_0_r, Ep. discriminate.
  - pose proof (IH _ _ _ H (k - 1) ltac:(lia)) as M.
    replace (p + 1 + (k - 1)) with (p + k) in M by lia.
    cbv beta in M. destruct (Z.eqb_spec (p + k) p); [lia|exact M].
Qed.

Lemma load_f32_mapped m p : mapped m p 4 <-> load_f32 m p <> None.
Proof.
  unfold load_f32. split.
  - intros H. destruct (read_bytes_mapped m 4 p H) as [bs ->]. discriminate.
  - intros H k Hk. destruct (read_bytes m p 4) as [bs|] eqn:E;
      [|now contradiction H].
    pose proof (read_bytes_nth _ _ _ _ E (Z.to_nat k) ltac:(lia)) as R.
    rewrite Z2Nat.id in R by lia. rewrite R. discriminate.
Qed.

Lemma load_f32_range m p x : load_f32 m p = Some x -> 0 <= x < 2 ^ 32.
Proof.
  unfold load_f32. destruct (read_bytes m p 4) as [bs|] eqn:E;
    [|discriminate].
  intros H. inversion H. unfold f32_of_bytes.
  pose proof (le_combine_bound bs) as B.
  rewrite (read_bytes_length _ _ _ _ E) in B. exact B.
Qed.

Lemma load_f32_ext m m' p :
  (forall k, 0 <= k < 4 -> m' (p + k) = m (p + k)) ->
  load_f32 m' p = load_f32 m p.
Proof.
  intros H. unfold load_f32. now rewrite (read_bytes_ext m m' 4 p).
Qed.

Lemma store_f32_inv m p x m' :
  store_f32 m p x = Some m' ->
  mapped m p 4 /\
  forall a, m' a =
    if (p <=? a) && (a <? p + 4)
    then Some (nth (Z.to_nat (a - p)) (le_split 4 x) Byte.x00) else m a.
Proof.
  unfold store_f32, f32_to_bytes. intros H.
  pose proof (write_bytes_mapped _ _ _ _ H) as M.
  rewrite length_le_split in M. split; [exact M|].
  destruct (write_bytes_spec (le_split 4 x) m p) as (m1 & W & S);
    [now rewrite length_le_split|].
  rewrite H in W. inversion W; subst m1.
  intros a. rewrite S, length_le_split. reflexivity.
Qed.

Lemma store_f32_mapped m p x :
  mapped m p 4 -> exists m', store_f32 m p x = Some m'.
Proof.
  intros H. destruct (write_bytes_spec (le_split 4 x) m p) as (m1 & W & _);
    [now rewrite length_le_split|].
  exists m1. exact W.
Qed.

Lemma store_f32_same m p x m' :
  store_f32 m p x = Some m' -> load_f32 m' p = Some (x mod 2 ^ 32).
Proof.
  intros H. destruct (store_f32_inv _ _ _ _ H) as [_ S].
  unfold load_f32.
  assert (read_bytes m' p 4 = Some (le_split 4 x)) as ->.
  { cbn [read_bytes].
    rewrite (S p), (S (p + 1)), (S (p + 1 + 1)), (S (p + 1 + 1 + 1)).
    repeat match goal with
           | |- context [(?a <=? ?b) && (?c <? ?d)] =>
               destruct (Z.leb_spec a b); [|lia];
               destruct (Z.ltb_spec c d); [|lia]; cbn [andb]
           end.
    replace (p - p) with 0 by lia.
    replace (p + 1 - p) with 1 by lia.
    replace (p + 1 + 1 - p) with 2 by lia.
    replace (p + 1 + 1 + 1 - p) with 3 by lia.
    reflexivity. }
  cbn [option_map]. unfold f32_of_bytes.
  now rewrite le_combine_split.
Qed.

Lemma store_f32_other m p x m' q :
  store_f32 m p x = Some m' -> cell_disjoint p q ->
  load_f32 m' q = load_f32 m q.
Proof.
  intros H D. destruct (store_f32_inv _ _ _ _ H) as [_ S].
  apply load_f32_ext. intros k Hk. rewrite S.
  unfold cell_disjoint, sizeof_float in D.
  destruct (Z.leb_spec p (q + k)), (Z.ltb_spec (q + k) (p + 4));
    cbn [andb]; try reflexivity; lia.
Qed.

Lemma store_f32_domain m p x m' :
  store_f32 m p x = Some m' -> forall a, m' a = None <-> m a = None.
Proof.
  intros H a. destruct (store_f32_inv _ _ _ _ H) as [M S]. rewrite S.
  destruct (Z.leb_spec p a), (Z.ltb_spec a (p + 4)); cbn [andb];
    try reflexivity.
  split; [discriminate|]. intros E. exfalso.
  apply (M (a - p)); [lia|]. now replace (p + (a - p)) with a by lia.
Qed.

Lemma mapped_domain m m' p n :
  (forall a, m' a = None <-> m a = None) -> mapped m p n -> mapped m' p n.
Proof. intros D H k Hk E. apply D in E. now apply (H k). Qed.

Lemma store_list_app l1 : forall m l2,
  store_list m (l1 ++ l2) =
  match store_list m l1 with
  | Some m' => store_list m' l2
  | None => None
  end.
Proof.
  induction l1 as [|[p x] l1 IH]; intros m l2; cbn [store_list app];
    [reflexivity|].
  destruct (store_f32 m p x); [apply IH|reflexivity].
Qed.

Lemma cell_eq_dec (a b : Z * Z) : {a = b} + {a <> b}.
Proof. decide equality; apply Z.eq_dec. Qed.

(** The memory after a sequence of stores into accessible cells. *)
Lemma store_list_spec cells : forall m,
  (forall p x, In (p, x) cells -> mapped m p 4) ->
  exists m',
    store_list m cells = Some m' /\
    (forall a, m' a = None <-> m a = None) /\
    (forall q, (forall p x, In (p, x) cells -> cell_disjoint p q) ->
               load_f32 m' q = load_f32 m q) /\
    (forall p x, In (p, x) cells ->
       (forall p' x', In (p', x') cells ->
          (p' = p /\ x' = x) \/ cell_disjoint p' p) ->
       load_f32 m' p = Some (x mod 2 ^ 32)).
Proof.
  induction cells as [|[p0 x0] cells IH]; intros m V.
  - exists m. cbn [store_list]. repeat split; auto.
    intros p x [].
  - destruct (store_f32_mapped m p0 x0) as [m1 S1];
      [apply (V p0 x0); left; reflexivity|].
    pose proof (store_f32_domain _ _ _ _ S1) as D1.
    destruct (IH m1) as (m' & SL & D & F & W).
    { intros p x Hin. apply (mapped_domain m); [exact D1|].
      apply (V p x). right. exact Hin. }
    exists m'. cbn [store_list]. rewrite S1. split; [exact SL|].
    split; [|split].
    + intros a. rewrite D. apply D1.
    + intros q Hq. rewrite F by (intros; apply (Hq p x); now right).
      apply (store_f32_other _ _ _ _ _ S1). apply (Hq p0 x0). now left.
    + intros p x Hin Hall.
      destruct (in_dec cell_eq_dec (p, x) cells) as [Hi|Hni].
      * apply W; [exact Hi|]. intros p' x' Hin'. apply Hall. now right.
      * destruct Hin as [E|Hi]; [|contradiction]. inversion E; subst p0 x0.
        rewrite F.
        -- apply (store_f32_same _ _ _ _ S1).
        -- intros p' x' Hin'.
           destruct (Hall p' x' (or_intror Hin')) as [[-> ->]|Dj];
             [contradiction|exact Dj].
Qed.

End Cells.

(* ================================================================== *)
(** * Loops and rows *)
(* ================================================================== *)

Section Rows.

Lemma for_range_opt_ext {S : Type} (f g : nat -> S -> option S) count :
  forall start s,
  (forall i s', (start <= i < start + count)%nat -> f i s' = g i s') ->
  for_range_opt count start f s = for_range_opt count start g s.
Proof.
  induction count as [|c IH]; intros start s H; cbn [for_range_opt];
    [reflexivity|].
  rewrite H by lia. destruct (g start s); [|reflexivity].
  apply IH. intros. apply H. lia.
Qed.

Lemma for_range_opt_pure {S : Type} (f : nat -> S -> option S)
    (g : nat -> S -> S) count :
  forall start s,
  (forall i s', (start <= i < start + count)%nat -> f i s' = Some (g i s')) ->
  for_range_opt count start f s = Some (for_range count start g s).
Proof.
  induction count as [|c IH]; intros start s H;
    cbn [for_range_opt for_range]; [reflexivity|].
  rewrite H by lia. apply IH. intros. apply H. lia.
Qed.

Lemma for_range_opt_store_list (cells : nat -> list (Z * Z)) count :
  forall start m,
  for_range_opt count start (fun j m' => store_list m' (cells j)) m
  = store_list m (flat_map cells (seq start count)).
Proof.
  induction count as [|c IH]; intros start m;
    cbn [for_range_opt seq flat_map]; [reflexivity|].
  rewrite store_list_app.
  destruct (store_list m (cells start)); [apply IH|reflexivity].
Qed.

Lemma read_bytes_app m a : forall p b,
  read_bytes m p (a + b) =
  match read_bytes m p a, read_bytes m (p + Z.of_nat a) b with
  | Some x, Some y => Some (x ++ y)
  | _, _ => None
  end.
Proof.
  induction a as [|a IH]; intros p b.
  - cbn [read_bytes Nat.add]. rewrite Z.add_0_r.
    destruct (read_bytes m p b); reflexivity.
  - cbn [read_bytes Nat.add]. rewrite IH.
    replace (p + 1 + Z.of_nat a) with (p + Z.of_nat (Datatypes.S a)) by lia.
    destruct (m p); [|reflexivity].
    destruct (read_bytes m (p + 1) a); [|reflexivity].
    destruct (read_bytes m (p + Z.of_nat (Datatypes.S a)) b); reflexivity.
Qed.

Lemma write_bytes_app l1 : forall m p l2,
  write_bytes m p (l1 ++ l2) =
  match write_bytes m p l1 with
  | Some m' => write_bytes m' (p + Z.of_nat (List.length l1)) l2
  | None => None
  end.
Proof.
  induction l1 as [|b l1 IH]; intros m p l2; cbn [write_bytes app List.length].
  - now rewrite Z.add_0_r.
  - destruct (write_byte m p b); [|reflexivity].
    rewrite IH.
    now replace (p + 1 + Z.of_nat (List.length l1))
      with (p + Z.of_nat (Datatypes.S (List.length l1))) by lia.
Qed.

(** The full-width load is eight float loads. *)
Lemma loadu_ps_lanes m p :
  _mm256_loadu_ps m p =
  option_tabulate (fun i => load_f32 m (index p (Z.of_nat i))).
Proof.
  unfold _mm256_loadu_ps, option_tabulate, load_f32, index, sizeof_float.
  change 32%nat with (4 + (4 + (4 + (4 + (4 + (4 + (4 + 4)))))))%nat.
  rewrite !read_bytes_app.
  replace (p + 4 * Z.of_nat 0) with p by lia.
  replace (p + 4 * Z.of_nat 1) with (p + Z.of_nat 4) by lia.
  replace (p + 4 * Z.of_nat 2) with (p + Z.of_nat 4 + Z.of_nat 4) by lia.
  replace (p + 4 * Z.of_nat 3)
    with (p + Z.of_nat 4 + Z.of_nat 4 + Z.of_nat 4) by lia.
  replace (p + 4 * Z.of_nat 4)
    with (p + Z.of_nat 4 + Z.of_nat 4 + Z.of_nat 4 + Z.of_nat 4) by lia.
  replace (p + 4 * Z.of_nat 5)
    with (p + Z.of_nat 4 + Z.of_nat 4 + Z.of_nat 4 + Z.of_nat 4
          + Z.of_nat 4) by lia.
  replace (p + 4 * Z.of_nat 6)
    with (p + Z.of_nat 4 + Z.of_nat 4 + Z.of_nat 4 + Z.of_nat 4
          + Z.of_nat 4 + Z.of_nat 4) by lia.
  replace (p + 4 * Z.of_nat 7)
    with (p + Z.of_nat 4 + Z.of_nat 4 + Z.of_nat 4 + Z.of_nat 4
          + Z.of_nat 4 + Z.of_nat 4 + Z.of_nat 4) by lia.
  repeat match goal with
         | |- context [read_bytes m ?q 4] =>
             let E := fresh "E" in
             destruct (read_bytes m q 4) as [?bs|] eqn:E;
             [ apply read_bytes_length in E;
               do 4 (destruct bs as [|? bs]; [discriminate|]);
               destruct bs; [|discriminate]; clear E
             | reflexivity ]
         end.
  reflexivity.
Qed.

(** The full-width store is eight float stores. *)
Lemma write_lanes p v n : forall start m,
  write_bytes m (index p (Z.of_nat start))
    (flat_map (fun i => f32_to_bytes (lane v i)) (seq start n))
  = store_list m
      (map (fun i => (index p (Z.of_nat i), lane v i)) (seq start n)).
Proof.
  induction n as [|n IH]; intros start m;
    cbn [seq flat_map map store_list]; [reflexivity|].
  rewrite write_bytes_app. unfold store_f32, f32_to_bytes in *.
  rewrite length_le_split.
  destruct (write_bytes m (index p (Z.of_nat start))
              (le_split 4 (lane v start))); [|reflexivity].
  replace (index p (Z.of_nat start) + Z.of_nat 4)
    with (index p (Z.of_nat (Datatypes.S start)))
    by (unfold index, sizeof_float; lia).
  apply IH.
Qed.

Lemma storeu_ps_lanes m p v :
  _mm256_storeu_ps m p v =
  store_list m (map (fun i => (index p (Z.of_nat i), lane v i)) (seq 0 8)).
Proof.
  unfold _mm256_storeu_ps, m256_to_bytes.
  rewrite <- write_lanes. f_equal. unfold index, sizeof_float. lia.
Qed.

End Rows.

(* ================================================================== *)
(** * The microkernel as loads, a permutation and stores *)
(* ================================================================== *)

Section Kernel.

Lemma flat_map_ext_in {A B : Type} (f g : A -> list B) (l : list A) :
  (forall a, In a l -> f a = g a) -> flat_map f l = flat_map g l.
Proof.
  induction l as [|a l IH]; intros H; cbn [flat_map]; [reflexivity|].
  rewrite H by (now left). f_equal. apply IH. intros. apply H. now right.
Qed.

Lemma load_row_full m p (xr : nat -> Z) :
  (forall j, Z.of_nat j < 8 -> load_f32 m (index p (Z.of_nat j)) = Some (xr j)) ->
  _mm256_loadu_ps m p = Some (masked_row 8 xr).
Proof.
  intros H. rewrite loadu_ps_lanes. unfold option_tabulate.
  rewrite !H by lia. reflexivity.
Qed.

Lemma load_row_masked m p N (xr : nat -> Z) :
  0 <= N < 8 ->
  (forall j, Z.of_nat j < N -> load_f32 m (index p (Z.of_nat j)) = Some (xr j)) ->
  _mm256_maskz_loadu_ps ((Z.shiftl 1 N - 1) mod 2 ^ 8) m p = Some (masked_row N xr).
Proof.
  intros HN H.
  assert (N = 0 \/ N = 1 \/ N = 2 \/ N = 3 \/ N = 4 \/ N = 5 \/ N = 6 \/ N = 7)
    as C by lia.
  unfold _mm256_maskz_loadu_ps, option_tabulate, masked_row, tabulate.
  destruct C as [->|[->|[->|[->|[->|[->|[->| ->]]]]]]];
    repeat match goal with
           | |- context [Z.testbit ?k ?i] =>
               let b := eval vm_compute in (Z.testbit k i) in
               change (Z.testbit k i) with b; cbv iota
           end;
    rewrite ?H by lia; reflexivity.
Qed.

Lemma store_row_masked m p M v :
  0 <= M < 8 ->
  _mm256_mask_storeu_ps m p ((Z.shiftl 1 M - 1) mod 2 ^ 8) v =
  store_list m
    (map (fun i => (index p (Z.of_nat i), lane v i)) (seq 0 (Z.to_nat M))).
Proof.
  intros HM.
  assert (M = 0 \/ M = 1 \/ M = 2 \/ M = 3 \/ M = 4 \/ M = 5 \/ M = 6 \/ M = 7)
    as C by lia.
  unfold _mm256_mask_storeu_ps.
  destruct C as [->|[->|[->|[->|[->|[->|[->| ->]]]]]]];
    cbn [Z.to_nat Pos.to_nat Pos.iter_op Nat.add seq map store_list
         for_range_opt];
    repeat match goal with
           | |- context [Z.testbit ?k ?i] =>
               let b := eval vm_compute in (Z.testbit k i) in
               change (Z.testbit k i) with b; cbv iota
           end;
    repeat match goal with
           | |- context [store_f32 ?m' ?q ?x] =>
               destruct (store_f32 m' q x); [|reflexivity]
           end;
    reflexivity.
Qed.

Lemma load_input_spec input m src ld_src M N (x : nat -> nat -> Z) :
  0 <= M <= 8 -> 0 <= N <= 8 ->
  (forall i j, Z.of_nat i < M -> Z.of_nat j < N ->
     load_f32 m (index src (Z.of_nat i * ld_src + Z.of_nat j))
     = Some (x i j)) ->
  Transpose.load_input input m src ld_src M N =
  Some (for_range (8 - Z.to_nat M) (Z.to_nat M)
          (fun i inp => Transpose.array_set inp i _mm256_setzero_ps)
          (for_range (Z.to_nat M) 0
             (fun i inp => Transpose.array_set inp i (masked_row N (x i)))
             input)).
Proof.
  intros HM HN H. unfold Transpose.load_input.
  assert (forall i, (0 <= i < 0 + Z.to_nat M)%nat ->
            forall j, Z.of_nat j < N ->
            load_f32 m (index (index src (Z.of_nat i * ld_src)) (Z.of_nat j))
            = Some (x i j)) as H'.
  { intros i Hi j Hj. rewrite index_index. apply H; lia. }
  destruct (Z.eqb_spec N 8) as [->|Hne].
  - rewrite (for_range_opt_pure _
               (fun i inp => Transpose.array_set inp i (masked_row 8 (x i))));
      [reflexivity|].
    intros i s Hi. rewrite (load_row_full _ _ (x i)); [reflexivity|].
    apply H'. exact Hi.
  - rewrite (for_range_opt_pure _
               (fun i inp => Transpose.array_set inp i (masked_row N (x i))));
      [reflexivity|].
    intros i s Hi. rewrite (load_row_masked _ _ N (x i)); [reflexivity|lia|].
    apply H'. exact Hi.
Qed.

Lemma store_output_spec temp m dst ld_dst M N :
  0 <= M <= 8 ->
  Transpose.store_output temp m dst ld_dst M N =
  store_list m
    (flat_map
       (fun j => map (fun i => (index dst (Z.of_nat j * ld_dst + Z.of_nat i),
                                lane (Transpose.array_get temp j) i))
                     (seq 0 (Z.to_nat M)))
       (seq 0 (Z.to_nat N))).
Proof.
  intros HM. unfold Transpose.store_output.
  rewrite <- for_range_opt_store_list.
  destruct (Z.eqb_spec M 8) as [->|Hne];
    apply for_range_opt_ext; intros j m' _.
  - rewrite storeu_ps_lanes. f_equal. apply map_ext. intros i.
    now rewrite index_index.
  - rewrite store_row_masked by lia. f_equal. apply map_ext. intros i.
    now rewrite index_index.
Qed.

End Kernel.

(** Enumerates the values a bounded [nat] can take. *)
Ltac enum_nat j :=
  first [ exfalso; lia | destruct j as [|j]; [ | enum_nat j ] ].

Section KernelPermutation.

(** Row [j] of the network's output is column [j] of its input: checked
    on every block size the kernel accepts. *)
Lemma shuffle_network_spec (uninit : nat -> __m256) (x : nat -> nat -> Z)
    (M N : Z) :
  0 <= M <= 8 -> 0 <= N <= 8 ->
  forall j i, (j < Z.to_nat N)%nat -> (i < Z.to_nat M)%nat ->
  lane (Transpose.array_get
          (Transpose.shuffle_network
             (for_range (8 - Z.to_nat M) (Z.to_nat M)
                (fun i inp => Transpose.array_set inp i _mm256_setzero_ps)
                (for_range (Z.to_nat M) 0
                   (fun i inp =>
                      Transpose.array_set inp i (masked_row N (x i)))
                   (map uninit (seq 0 8))))
             (map uninit (seq 8 8)) M N) j) i
  = x i j.
Proof.
  intros HM HN.
  assert (M = 0 \/ M = 1 \/ M = 2 \/ M = 3 \/ M = 4 \/ M = 5 \/ M = 6 \/
          M = 7 \/ M = 8) as CM by lia.
  assert (N = 0 \/ N = 1 \/ N = 2 \/ N = 3 \/ N = 4 \/ N = 5 \/ N = 6 \/
          N = 7 \/ N = 8) as CN by lia.
  clear HM HN.
  destruct CM as [->|[->|[->|[->|[->|[->|[->|[->| ->]]]]]]]];
  destruct CN as [->|[->|[->|[->|[->|[->|[->|[->| ->]]]]]]]];
  intros j i Hj Hi; enum_nat j; enum_nat i; vm_compute; reflexivity.
Qed.

End KernelPermutation.

Section KernelSpec.

Lemma kernel_as_stores uninit m src ld_src dst ld_dst M N
    (x : nat -> nat -> Z) :
  0 <= M <= 8 -> 0 <= N <= 8 ->
  (forall i j, Z.of_nat i < M -> Z.of_nat j < N ->
     load_f32 m (index src (Z.of_nat i * ld_src + Z.of_nat j))
     = Some (x i j)) ->
  Transpose.transpose_mxn_8x8 uninit m src ld_src dst ld_dst M N =
  match store_list m (block_cells dst ld_dst (Z.to_nat M) (Z.to_nat N) x) with
  | Some m' => Ok m' tt
  | None => Undefined
  end.
Proof.
  intros HM HN H. unfold Transpose.transpose_mxn_8x8, TORCH_CHECK.
  destruct (Z.leb_spec M 8); [|lia]. destruct (Z.leb_spec N 8); [|lia].
  destruct (Z.ltb_spec M 0); [lia|]. destruct (Z.ltb_spec N 0); [lia|].
  cbn [andb orb].
  rewrite (load_input_spec _ _ _ _ _ _ x) by assumption.
  rewrite store_output_spec by assumption.
  unfold block_cells.
  erewrite flat_map_ext_in; [reflexivity|].
  intros j Hj. apply map_ext_in. intros i Hi.
  apply in_seq in Hj, Hi. f_equal.
  apply shuffle_network_spec; lia.
Qed.

Lemma in_block_cells dst ld_dst M N x p v :
  In (p, v) (block_cells dst ld_dst M N x) <->
  exists j i, (j < N)%nat /\ (i < M)%nat /\
              p = index dst (Z.of_nat j * ld_dst + Z.of_nat i) /\
              v = x i j.
Proof.
  unfold block_cells. rewrite in_flat_map. split.
  - intros (j & Hj & Hin). apply in_map_iff in Hin as (i & E & Hi).
    apply in_seq in Hj, Hi. inversion E. exists j, i. repeat split; lia.
  - intros (j & i & Hj & Hi & -> & ->). exists j. split; [apply in_seq; lia|].
    apply in_map_iff. exists i. split; [reflexivity|apply in_seq; lia].
Qed.

(** Distinct cells of a destination whose rows are at least [M] apart do
    not overlap. *)
Lemma dst_cells_apart dst ld_dst M i j i' j' :
  M <= ld_dst -> 0 <= i < M -> 0 <= i' < M ->
  (i = i' /\ j = j') \/
  cell_disjoint (index dst (j * ld_dst + i)) (index dst (j' * ld_dst + i')).
Proof.
  intros Hld Hi Hi'. unfold cell_disjoint, index, sizeof_float.
  destruct (Z.lt_trichotomy j j') as [L|[E|G]].
  - right. left.
    assert (j * ld_dst + ld_dst <= j' * ld_dst) by nia. lia.
  - subst j'. destruct (Z.lt_trichotomy i i') as [L|[E|G]]; [right|left|right];
      lia.
  - right. right.
    assert (j' * ld_dst + ld_dst <= j * ld_dst) by nia. lia.
Qed.

(** ** What one call of the microkernel does to memory *)
Lemma kernel_spec uninit m src ld_src dst ld_dst M N :
  0 <= M <= 8 -> 0 <= N <= 8 -> M <= ld_dst ->
  (forall i j, 0 <= i < M -> 0 <= j < N ->
     load_f32 m (index src (i * ld_src + j)) <> None) ->
  (forall i j, 0 <= i < M -> 0 <= j < N ->
     mapped m (index dst (j * ld_dst + i)) 4) ->
  exists m',
    Transpose.transpose_mxn_8x8 uninit m src ld_src dst ld_dst M N
    = Ok m' tt /\
    (forall a, m' a = None <-> m a = None) /\
    (forall q,
       (forall i j, 0 <= i < M -> 0 <= j < N ->
          cell_disjoint (index dst (j * ld_dst + i)) q) ->
       load_f32 m' q = load_f32 m q) /\
    (forall i j, 0 <= i < M -> 0 <= j < N ->
       load_f32 m' (index dst (j * ld_dst + i))
       = load_f32 m (index src (i * ld_src + j))).
Proof.
  intros HM HN Hld Hsrc Hdst.
  set (x := fun i j : nat =>
              match load_f32 m (index src (Z.of_nat i * ld_src + Z.of_nat j)) with
              | Some v => v
              | None => 0
              end).
  assert (forall i j, Z.of_nat i < M -> Z.of_nat j < N ->
            load_f32 m (index src (Z.of_nat i * ld_src + Z.of_nat j))
            = Some (x i j)) as Hx.
  { intros i j Hi Hj. unfold x.
    destruct (load_f32 m (index src (Z.of_nat i * ld_src + Z.of_nat j)))
      eqn:E; [reflexivity|].
    exfalso. apply (Hsrc (Z.of_nat i) (Z.of_nat j)); [lia|lia|exact E]. }
  rewrite (kernel_as_stores _ _ _ _ _ _ _ _ x) by assumption.
  destruct (store_list_spec
              (block_cells dst ld_dst (Z.to_nat M) (Z.to_nat N) x) m)
    as (m' & SL & D & F & W).
  { intros p v Hin. apply in_block_cells in Hin as (j & i & Hj & Hi & -> & _).
    apply Hdst; lia. }
  exists m'. rewrite SL. split; [reflexivity|]. split; [exact D|]. split.
  - intros q Hq. apply F. intros p v Hin.
    apply in_block_cells in Hin as (j & i & Hj & Hi & -> & _).
    apply Hq; lia.
  - intros i j Hi Hj.
    assert (i = Z.of_nat (Z.to_nat i)) as Ei by lia.
    assert (j = Z.of_nat (Z.to_nat j)) as Ej by lia.
    rewrite Ei, Ej, Hx by lia.
    rewrite (W _ (x (Z.to_nat i) (Z.to_nat j))).
    + f_equal. apply Z.mod_small. eapply load_f32_range. apply Hx; lia.
    + apply in_block_cells. exists (Z.to_nat j), (Z.to_nat i).
      repeat split; lia.
    + intros p' v' Hin.
      apply in_block_cells in Hin as (j' & i' & Hj' & Hi' & -> & ->).
      destruct (dst_cells_apart dst ld_dst M (Z.of_nat i') (Z.of_nat j')
                  (Z.of_nat (Z.to_nat i)) (Z.of_nat (Z.to_nat j)))
        as [[E1 E2]|Dj]; try lia.
      * left. apply Nat2Z.inj in E1, E2. subst. split; reflexivity.
      * right. exact Dj.
Qed.

End KernelSpec.

(* ================================================================== *)
(** * The tiled transpose *)
(* ================================================================== *)

Section Tiled.

Variable uninit : nat -> __m256.
Variable m0 : mem.
Variables src ld_src dst ld_dst M N : Z.

Hypothesis HM : 0 <= M.
Hypothesis HN : 0 <= N.
Hypothesis Hld_dst : M <= ld_dst.
Hypothesis Hsrc : forall i j, 0 <= i < M -> 0 <= j < N ->
  load_f32 m0 (index src (i * ld_src + j)) <> None.
Hypothesis Hdst : forall i j, 0 <= i < M -> 0 <= j < N ->
  mapped m0 (index dst (j * ld_dst + i)) 4.
Hypothesis Hapart : forall i j i' j',
  0 <= i < M -> 0 <= j < N -> 0 <= i' < M -> 0 <= j' < N ->
  cell_disjoint (index dst (j' * ld_dst + i')) (index src (i * ld_src + j)).

Local Abbreviation inv := (tiles_done m0 src ld_src dst ld_dst M N).

Lemma tiles_done_init : inv m0 (fun _ _ => False).
Proof.
  split; [|split]; [reflexivity | reflexivity | intros i j _ _ []].
Qed.

Lemma tiles_done_weaken m (P Q : Z -> Z -> Prop) :
  inv m P -> (forall i j, Q i j -> P i j) -> inv m Q.
Proof.
  intros (D & F & V) H. split; [exact D|]. split; [exact F|].
  intros i j Hi Hj HQ. apply V; auto.
Qed.

Lemma source_unchanged m P i j :
  inv m P -> 0 <= i < M -> 0 <= j < N ->
  load_f32 m (index src (i * ld_src + j)) = load_f32 m0 (index src (i * ld_src + j)).
Proof.
  intros (_ & F & _) Hi Hj. apply F. intros i' j' Hi' Hj'.
  apply Hapart; assumption.
Qed.

(** One call on the block at [(i0, j0)] of size [Mt x Nt]. *)
Lemma tile_step m P i0 j0 Mt Nt :
  inv m P ->
  0 <= i0 -> 0 <= j0 -> 0 <= Mt <= 8 -> 0 <= Nt <= 8 ->
  i0 + Mt <= M -> j0 + Nt <= N ->
  exists m',
    Transpose.transpose_mxn_8x8 uninit m (index src (i0 * ld_src + j0))
      ld_src (index dst (j0 * ld_dst + i0)) ld_dst Mt Nt = Ok m' tt /\
    inv m'
      (fun i j => P i j \/ (i0 <= i < i0 + Mt /\ j0 <= j < j0 + Nt)).
Proof.
  intros Inv Hi0 Hj0 HMt HNt HiM HjN.
  pose proof Inv as (Dm & Fm & Vm).
  assert (forall i j, index (index src (i0 * ld_src + j0)) (i * ld_src + j)
                      = index src ((i0 + i) * ld_src + (j0 + j))) as ES
    by (intros; rewrite index_index; f_equal; lia).
  assert (forall i j, index (index dst (j0 * ld_dst + i0)) (j * ld_dst + i)
                      = index dst ((j0 + j) * ld_dst + (i0 + i))) as ED
    by (intros; rewrite index_index; f_equal; lia).
  destruct (kernel_spec uninit m (index src (i0 * ld_src + j0)) ld_src
              (index dst (j0 * ld_dst + i0)) ld_dst Mt Nt)
    as (m' & K & D' & F' & V'); try lia.
  { intros i j Hi Hj. rewrite ES, (source_unchanged m P) by (auto; lia).
    apply Hsrc; lia. }
  { intros i j Hi Hj. rewrite ED. apply (mapped_domain m0); [exact Dm|].
    apply Hdst; lia. }
  exists m'. split; [exact K|]. split; [|split].
  - intros a. rewrite D'. apply Dm.
  - intros q Hq. rewrite F'; [apply Fm; exact Hq|].
    intros i j Hi Hj. rewrite ED. apply Hq; lia.
  - intros i j Hi Hj HP.
    destruct (Z_le_dec i0 i), (Z_lt_dec i (i0 + Mt)),
             (Z_le_dec j0 j), (Z_lt_dec j (j0 + Nt)).
    1: { specialize (V' (i - i0) (j - j0) ltac:(lia) ltac:(lia)).
         rewrite ES, ED in V'.
         replace (i0 + (i - i0)) with i in V' by lia.
         replace (j0 + (j - j0)) with j in V' by lia.
         rewrite V'. apply (source_unchanged m P); auto. }
    all: destruct HP as [HP|HP]; [|lia];
      rewrite F'; [apply Vm; auto|];
      intros i' j' Hi' Hj'; rewrite ED;
      destruct (dst_cells_apart dst ld_dst M (i0 + i') (j0 + j') i j)
        as [[E1 E2]|Dj]; try lia; exact Dj.
Qed.

(** The loop over full-width column blocks of one band of rows. *)
Lemma column_loop i0 Mt K fuel : forall k m P,
  inv m P ->
  0 <= i0 -> 0 <= Mt <= 8 -> i0 + Mt <= M -> 8 * K <= N ->
  0 <= k <= K -> (Z.to_nat (K - k) <= fuel)%nat ->
  exists m',
    Transpose.for_step8 fuel (8 * k) (8 * K)
      (fun j m =>
         Transpose.transpose_mxn_8x8 uninit m (index src (i0 * ld_src + j))
           ld_src (index dst (j * ld_dst + i0)) ld_dst Mt 8) m
    = Ok m' (8 * K) /\
    inv m'
      (fun i j => P i j \/ (i0 <= i < i0 + Mt /\ 8 * k <= j < 8 * K)).
Proof.
  induction fuel as [|fuel IH]; intros k m P Inv Hi0 HMt HiM HK Hk Hfuel.
  - assert (k = K) as -> by lia. exists m.
    cbn [Transpose.for_step8]. rewrite Z.ltb_irrefl. split; [reflexivity|].
    apply (tiles_done_weaken m P); [exact Inv|]. intros i j [HP|HT]; [auto|lia].
  - cbn [Transpose.for_step8].
    destruct (Z.ltb_spec (8 * k) (8 * K)) as [L|G].
    + destruct (tile_step m P i0 (8 * k) Mt 8) as (m1 & K1 & Inv1);
        auto; try lia.
      rewrite K1. cbn [bind].
      replace (8 * k + 8) with (8 * (k + 1)) by lia.
      destruct (IH (k + 1) m1 _ Inv1) as (m' & L' & Inv'); auto; try lia.
      exists m'. split; [exact L'|].
      apply (tiles_done_weaken _ _ _ Inv'). intros i j [HP|HT]; [auto|].
      destruct (Z_lt_dec j (8 * k + 8)); [left; right|right]; lia.
    + assert (k = K) as -> by lia. exists m. split; [reflexivity|].
      apply (tiles_done_weaken m P); [exact Inv|].
      intros i j [HP|HT]; [auto|lia].
Qed.


Lemma quot8 n : 0 <= n -> Z.quot n 8 * 8 = 8 * (n / 8).
Proof. intros H. rewrite Z.quot_div_nonneg by lia. lia. Qed.

(** A band of [Mt] rows: the full-width column blocks, then the block of
    the remaining [N mod 8] columns, which the caller runs only when it is
    not empty ([guarded]) or always. *)
Lemma row_band (guarded : bool) i0 Mt m P :
  inv m P -> 0 <= i0 -> 0 <= Mt <= 8 -> i0 + Mt <= M ->
  exists m',
    bind
      (Transpose.for_step8 (Z.to_nat N) 0 (Z.quot N 8 * 8)
         (fun j m =>
            Transpose.transpose_mxn_8x8 uninit m
              (index src (i0 * ld_src + j)) ld_src
              (index dst (j * ld_dst + i0)) ld_dst Mt 8) m)
      (fun m j =>
         if guarded && negb (N - j >? 0) then Ok m tt
         else Transpose.transpose_mxn_8x8 uninit m
                (index src (i0 * ld_src + j)) ld_src
                (index dst (j * ld_dst + i0)) ld_dst Mt (N - j))
    = Ok m' tt /\
    inv m' (fun i j => P i j \/ (i0 <= i < i0 + Mt /\ 0 <= j < N)).
Proof.
  intros Inv Hi0 HMt HiM.
  pose proof (Z.div_mod N 8 ltac:(lia)) as DM.
  pose proof (Z.mod_pos_bound N 8 ltac:(lia)) as MB.
  pose proof (Z.div_pos N 8 HN ltac:(lia)) as DP.
  rewrite quot8 by assumption.
  destruct (column_loop i0 Mt (N / 8) (Z.to_nat N) 0 m P)
    as (m1 & L1 & Inv1); auto; try lia.
  change (8 * 0) with 0 in L1. rewrite L1. cbn [bind].
  destruct (guarded && negb (N - 8 * (N / 8) >? 0)) eqn:G.
  - exists m1. split; [reflexivity|].
    apply andb_true_iff in G as [_ G]. apply negb_true_iff in G.
    destruct (Z.gtb_spec (N - 8 * (N / 8)) 0); [discriminate|].
    apply (tiles_done_weaken _ _ _ Inv1). intros i j [HP|HT]; [auto|].
    right. lia.
  - destruct (tile_step m1 _ i0 (8 * (N / 8)) Mt (N - 8 * (N / 8)) Inv1)
      as (m2 & K2 & Inv2); try lia.
    exists m2. split; [exact K2|].
    apply (tiles_done_weaken _ _ _ Inv2). intros i j [HP|HT]; [auto|].
    destruct (Z_lt_dec j (8 * (N / 8))); [left; right|right]; lia.
Qed.

(** The loop over full bands of eight rows. *)
Lemma band_loop K fuel : forall k m P,
  inv m P -> 8 * K <= M -> 0 <= k <= K -> (Z.to_nat (K - k) <= fuel)%nat ->
  exists m',
    Transpose.for_step8 fuel (8 * k) (8 * K)
      (fun i m =>
         bind
           (Transpose.for_step8 (Z.to_nat N) 0 (Z.quot N 8 * 8)
              (fun j m =>
                 Transpose.transpose_mxn_8x8 uninit m
                   (index src (i * ld_src + j)) ld_src
                   (index dst (j * ld_dst + i)) ld_dst 8 8) m)
           (fun m j =>
              if N - j >? 0 then
                Transpose.transpose_mxn_8x8 uninit m
                  (index src (i * ld_src + j)) ld_src
                  (index dst (j * ld_dst + i)) ld_dst 8 (N - j)
              else Ok m tt)) m
    = Ok m' (8 * K) /\
    inv m' (fun i j => P i j \/ (8 * k <= i < 8 * K /\ 0 <= j < N)).
Proof.
  induction fuel as [|fuel IH]; intros k m P Inv HK Hk Hfuel.
  - assert (k = K) as -> by lia. exists m.
    cbn [Transpose.for_step8]. rewrite Z.ltb_irrefl. split; [reflexivity|].
    apply (tiles_done_weaken m P); [exact Inv|]. intros i j [HP|HT]; [auto|lia].
  - cbn [Transpose.for_step8].
    destruct (Z.ltb_spec (8 * k) (8 * K)) as [L|G].
    + destruct (row_band true (8 * k) 8 m P) as (m1 & B1 & Inv1);
        auto; try lia.
      match goal with
      | |- context [bind (bind ?a ?f) _] =>
          replace (bind a f) with (Ok m1 tt : result mem unit)
      end.
      2:{ rewrite <- B1. unfold bind.
          destruct (Transpose.for_step8 _ _ _ _ _) as [m2 j| | |];
            try reflexivity.
          cbn [andb]. destruct (N - j >? 0); reflexivity. }
      cbn [bind].
      replace (8 * k + 8) with (8 * (k + 1)) by lia.
      destruct (IH (k + 1) m1 _ Inv1) as (m' & L' & Inv'); auto; try lia.
      exists m'. split; [exact L'|].
      apply (tiles_done_weaken _ _ _ Inv'). intros i j [HP|HT]; [auto|].
      destruct (Z_lt_dec i (8 * k + 8)); [left; right|right]; lia.
    + assert (k = K) as -> by lia. exists m. split; [reflexivity|].
      apply (tiles_done_weaken m P); [exact Inv|].
      intros i j [HP|HT]; [auto|lia].
Qed.

(** The whole tiled transpose. *)
Lemma transpose_mxn_tiles :
  exists m',
    Transpose.transpose_mxn uninit m0 src ld_src dst ld_dst M N = Ok m' tt /\
    inv m' (fun i j => 0 <= i < M /\ 0 <= j < N).
Proof.
  pose proof (Z.div_mod M 8 ltac:(lia)) as DM.
  pose proof (Z.mod_pos_bound M 8 ltac:(lia)) as MB.
  pose proof (Z.div_pos M 8 HM ltac:(lia)) as DP.
  unfold Transpose.transpose_mxn. cbv zeta.
  rewrite (quot8 M) by assumption.
  destruct (band_loop (M / 8) (Z.to_nat M) 0 m0 _ tiles_done_init)
    as (m1 & L1 & Inv1); try lia.
  change (8 * 0) with 0 in L1. rewrite L1. cbn [bind].
  destruct (Z.gtb_spec (M - 8 * (M / 8)) 0) as [R|R].
  - destruct (row_band false (8 * (M / 8)) (M - 8 * (M / 8)) m1 _ Inv1)
      as (m2 & B2 & Inv2); try lia.
    cbn [andb] in B2. exists m2. split; [exact B2|].
    apply (tiles_done_weaken _ _ _ Inv2). intros i j [Hi Hj].
    destruct (Z_lt_dec i (8 * (M / 8))); [left; right|right]; lia.
  - exists m1. split; [reflexivity|].
    apply (tiles_done_weaken _ _ _ Inv1). intros i j [Hi Hj].
    right. lia.
Qed.

End Tiled.

(* ================================================================== *)
(** * transpose_mxn *)
(* ================================================================== *)

(** C1. For [M, N >= 1], strides [ld_src >= N] and [ld_dst >= M], accessible
    source and destination blocks that share no byte: [transpose_mxn]
    finishes, and afterwards [dst[j*ld_dst + i]] holds what [src[i*ld_src + j]]
    held, for every [i < M] and [j < N]. *)
Theorem transpose_mxn_correct (uninit : nat -> __m256) (m : mem)
    (src ld_src dst ld_dst M N : Z) :
  1 <= M -> 1 <= N -> N <= ld_src -> M <= ld_dst ->
  (forall i j, 0 <= i < M -> 0 <= j < N ->
     mapped m (index src (i * ld_src + j)) 4) ->
  (forall i j, 0 <= i < M -> 0 <= j < N ->
     mapped m (index dst (j * ld_dst + i)) 4) ->
  (forall i j i' j',
     0 <= i < M -> 0 <= j < N -> 0 <= i' < M -> 0 <= j' < N ->
     cell_disjoint (index dst (j' * ld_dst + i')) (index src (i * ld_src + j))) ->
  exists m',
    Transpose.transpose_mxn uninit m src ld_src dst ld_dst M N = Ok m' tt /\
    forall i j, 0 <= i < M -> 0 <= j < N ->
      exists x,
        load_f32 m (index src (i * ld_src + j)) = Some x /\
        load_f32 m' (index dst (j * ld_dst + i)) = Some x.
Proof.
  intros HM HN _ Hld Hsrc Hdst Hapart.
  destruct (transpose_mxn_tiles uninit m src ld_src dst ld_dst M N)
    as (m' & E & _ & _ & V); try lia; auto.
  { intros i j Hi Hj. apply load_f32_mapped. auto. }
  exists m'. split; [exact E|]. intros i j Hi Hj.
  destruct (load_f32 m (index src (i * ld_src + j))) as [x|] eqn:L.
  - exists x. split; [reflexivity|]. rewrite <- L. apply V; auto.
  - exfalso. revert L. apply load_f32_mapped. auto.
Qed.

Lemma example_10x3_source i j :
  0 <= i < 10 -> 0 <= j < 3 ->
  load_f32 example_10x3 (index 1000 (i * 3 + j)) = Some (F32.of_Z (i * 3 + j)).
Proof.
  intros Hi Hj.
  assert (i = 0 \/ i = 1 \/ i = 2 \/ i = 3 \/ i = 4 \/ i = 5 \/ i = 6 \/
          i = 7 \/ i = 8 \/ i = 9) as Ci by lia.
  assert (j = 0 \/ j = 1 \/ j = 2) as Cj by lia.
  destruct Ci as [->|[->|[->|[->|[->|[->|[->|[->|[->| ->]]]]]]]]];
    destruct Cj as [->|[->| ->]]; vm_compute; reflexivity.
Qed.

Lemma example_10x3_mapped p :
  1000 <= p <= 1116 \/ 2000 <= p <= 2116 -> mapped example_10x3 p 4.
Proof.
  intros H k Hk. unfold example_10x3.
  destruct (Z.leb_spec 1000 (p + k)), (Z.ltb_spec (p + k) 1120);
    cbn [andb]; try discriminate;
    destruct (Z.leb_spec 2000 (p + k)), (Z.ltb_spec (p + k) 2120);
    cbn [andb]; try discriminate; lia.
Qed.

Lemma transpose_mxn_correct_witness :
  exists m',
    Transpose.transpose_mxn (fun _ => _mm256_setzero_ps) example_10x3
      1000 3 2000 10 10 3 = Ok m' tt /\
    forall i j, 0 <= i < 10 -> 0 <= j < 3 ->
      load_f32 m' (index 2000 (j * 10 + i)) = Some (F32.of_Z (i * 3 + j)).
Proof.
  destruct (transpose_mxn_correct (fun _ => _mm256_setzero_ps) example_10x3
              1000 3 2000 10 10 3) as (m' & E & H).
  - lia.
  - lia.
  - lia.
  - lia.
  - intros i j Hi Hj. apply example_10x3_mapped.
    unfold index, sizeof_float. lia.
  - intros i j Hi Hj. apply example_10x3_mapped.
    unfold index, sizeof_float. lia.
  - intros i j i' j' Hi Hj Hi' Hj'.
    unfold cell_disjoint, index, sizeof_float. lia.
  - exists m'. split; [exact E|]. intros i j Hi Hj.
    destruct (H i j Hi Hj) as (x & L & L').
    rewrite example_10x3_source in L by assumption.
    rewrite L'. exact (eq_sym L).
Defined.

(* ================================================================== *)
(** * Further lane-wise operations *)
(* ================================================================== *)

Section MoreLanes.

Lemma max_unordered x y :
  F32.is_nan x || F32.is_nan y = true -> F32.max x y = y.
Proof.
  intros H. unfold F32.max, SFltb.
  destruct (F32.is_nan y) eqn:Ny.
  - now rewrite (decode_nan y Ny).
  - cbn [orb] in H. rewrite orb_false_r in H.
    now rewrite (decode_nan x H), SFcompare_nan_r.
Qed.

Lemma min_unordered x y :
  F32.is_nan x || F32.is_nan y = true -> F32.min x y = y.
Proof.
  intros H. unfold F32.min, SFltb.
  destruct (F32.is_nan x) eqn:Nx.
  - now rewrite (decode_nan x Nx).
  - cbn [orb] in H. now rewrite (decode_nan y H), SFcompare_nan_r.
Qed.

Lemma bits_to_Z_range bs : 0 <= bits_to_Z bs < 2 ^ Z.of_nat (List.length bs).
Proof.
  induction bs as [|b bs IH]; cbn [bits_to_Z List.length]; [lia|].
  rewrite Nat2Z.inj_succ, Z.pow_succ_r by lia.
  destruct b; cbn [Z.b2z]; lia.
Qed.

(** A pattern with the exponent and fraction bits of [x]. *)
Lemma fields_agree r x :
  (forall n, 0 <= n < 31 -> Z.testbit r n = Z.testbit x n) ->
  F32.biased_exp r = F32.biased_exp x /\ F32.fraction r = F32.fraction x.
Proof.
  intros H. unfold F32.biased_exp, F32.fraction. split.
  - apply Z.bits_inj'. intros n Hn. change 255 with (Z.ones 8).
    rewrite !Z.land_spec, !Z.shiftr_spec, Z.testbit_ones_nonneg by lia.
    destruct (Z.ltb_spec n 8); [|now rewrite !andb_false_r].
    now rewrite H by lia.
  - apply Z.bits_inj'. intros n Hn.
    rewrite !Z.land_spec, Z.testbit_ones_nonneg by lia.
    destruct (Z.ltb_spec n 23); [|now rewrite !andb_false_r].
    now rewrite H by lia.
Qed.

Lemma magnitude_agree r x :
  (forall n, 0 <= n < 31 -> Z.testbit r n = Z.testbit x n) ->
  F32.is_nan r = F32.is_nan x /\ F32.magnitude r = F32.magnitude x.
Proof.
  intros H. destruct (fields_agree r x H) as [E F].
  unfold F32.is_nan, F32.magnitude, F32.mantissa. now rewrite E, F.
Qed.

Lemma neg_zero_bits n :
  0 <= n -> Z.testbit F32.neg_zero n = (31 =? n).
Proof.
  intros H. change F32.neg_zero with (2 ^ 31). now apply Z.pow2_bits_eqb.
Qed.

Lemma scaled_zero_iff x :
  F32.wf x -> F32.is_nan x = false ->
  (F32.scaled x = 0 <-> x = F32.zero \/ x = F32.neg_zero).
Proof.
  intros W Nn. split.
  - intros S0.
    assert (F32.magnitude x = 0) as M0
      by (unfold F32.scaled in S0; destruct (F32.sign_bit x); lia).
    apply magnitude_zero_iff in M0. unfold F32.mantissa in M0.
    pose proof (fraction_range x) as RF.
    destruct (Z.eqb_spec (F32.biased_exp x) 0) as [E|E]; [|lia].
    rewrite (fields_of_pattern x W), E, M0.
    destruct (F32.sign_bit x); [right|left]; reflexivity.
  - intros [->| ->]; reflexivity.
Qed.

End MoreLanes.

(** X1. Bit [i] of [zero_mask()] is set exactly when lane [i] is a zero of
    either sign; the other bits are clear. *)
Theorem zero_mask_bits (v : __m256) :
  0 <= Vec.zero_mask v < 256 /\
  forall i, (i < 8)%nat ->
    Z.testbit (Vec.zero_mask v) (Z.of_nat i)
    = negb (F32.is_nan (lane v i)) && (F32.scaled (lane v i) =? 0) /\
    (F32.wf (lane v i) ->
     (Z.testbit (Vec.zero_mask v) (Z.of_nat i) = true <->
      lane v i = F32.zero \/ lane v i = F32.neg_zero)).
Proof.
  split.
  - unfold Vec.zero_mask, _mm256_movemask_ps.
    match goal with |- 0 <= bits_to_Z ?l < _ => apply (bits_to_Z_range l) end.
  - intros i Hi.
    assert (Z.testbit (Vec.zero_mask v) (Z.of_nat i)
            = negb (F32.is_nan (lane v i)) && (F32.scaled (lane v i) =? 0))
      as E.
    { unfold Vec.zero_mask, _mm256_movemask_ps. rewrite testbit_bits_to_Z.
      assert (forall g : nat -> bool, nth i (List.map g (seq 0 8)) false = g i)
        as -> by (intros g; do 8 (destruct i as [|i]; [reflexivity|]); lia).
      unfold _mm256_cmp_ps. rewrite lane_lanewise by assumption.
      unfold _mm256_set1_ps. rewrite lane_tabulate, cmp_lane by assumption.
      change (F32.is_nan F32.zero) with false.
      change (F32.scaled F32.zero) with 0.
      rewrite orb_false_r, Z.eqb_compare.
      destruct (F32.is_nan (lane v i)); [reflexivity|].
      cbn [negb andb F32.cmp_holds].
      destruct (F32.scaled (lane v i) ?= 0); reflexivity. }
    split; [exact E|]. intros W. rewrite E.
    destruct (F32.is_nan (lane v i)) eqn:Nn; cbn [negb andb].
    + split; [discriminate|].
      intros [Z0|Z0]; rewrite Z0 in Nn; discriminate.
    + rewrite Z.eqb_eq. now apply scaled_zero_iff.
Qed.

Lemma zero_mask_bits_witness :
  Z.testbit
    (Vec.zero_mask (_mm256_setr_ps 0x3F800000 0 0x80000000 3 4 5 6 7)) 2
  = true.
Proof.
  destruct (zero_mask_bits
              (_mm256_setr_ps 0x3F800000 0 0x80000000 3 4 5 6 7)) as [_ H].
  destruct (H 2%nat ltac:(lia)) as [_ W].
  apply W; [unfold F32.wf; cbn [lane _mm256_setr_ps ps2]; lia|].
  right. reflexivity.
Defined.

(** X2. In every lane, [isnan()] is the all-ones mask when the lane is a NaN
    and the all-zeros mask otherwise. *)
Theorem isnan_mask (v : __m256) (i : nat) :
  (i < 8)%nat ->
  lane (Vec.isnan v) i = if F32.is_nan (lane v i) then F32.all_ones else 0.
Proof.
  intros Hi. unfold Vec.isnan, _mm256_cmp_ps.
  rewrite lane_lanewise by assumption.
  unfold _mm256_set1_ps. rewrite lane_tabulate, cmp_lane by assumption.
  change (F32.is_nan F32.zero) with false. rewrite orb_false_r.
  destruct (F32.is_nan (lane v i)); reflexivity.
Qed.

Lemma isnan_mask_witness :
  lane (Vec.isnan (_mm256_setr_ps 0 1 2 0x7FC00000 4 5 6 7)) 3 = F32.all_ones.
Proof.
  exact (isnan_mask (_mm256_setr_ps 0 1 2 0x7FC00000 4 5 6 7) 3 ltac:(lia)).
Defined.

(** X3. In every lane, [ne], [gt], [ge], [lt] and [le] hold [1.0f] when
    their comparison holds and [0.0f] when it does not; with a NaN operand
    only [ne] holds. *)
Theorem named_comparisons (a b : __m256) (i : nat) :
  (i < 8)%nat ->
  let x := lane a i in
  let y := lane b i in
  let num (holds : bool) := if holds then F32.one else F32.zero in
  lane (Vec.ne a b) i =
    num (F32.is_nan x || F32.is_nan y || negb (F32.scaled x =? F32.scaled y)) /\
  lane (Vec.gt a b) i = num (ordered x y && (F32.scaled x >? F32.scaled y)) /\
  lane (Vec.ge a b) i = num (ordered x y && (F32.scaled x >=? F32.scaled y)) /\
  lane (Vec.lt a b) i = num (ordered x y && (F32.scaled x <? F32.scaled y)) /\
  lane (Vec.le a b) i = num (ordered x y && (F32.scaled x <=? F32.scaled y)).
Proof.
  intros Hi x y num.
  unfold Vec.ne, Vec.gt, Vec.ge, Vec.lt, Vec.le, Vec.op_and, _mm256_and_ps,
    Vec.op_ne, Vec.op_gt, Vec.op_ge, Vec.op_lt, Vec.op_le, _mm256_cmp_ps.
  rewrite !lane_lanewise by assumption.
  unfold _mm256_set1_ps. rewrite !lane_tabulate by assumption.
  fold x y. rewrite !cmp_lane. unfold ordered, num.
  rewrite Z.eqb_compare. unfold Z.ltb, Z.leb, Z.gtb, Z.geb.
  destruct (F32.is_nan x), (F32.is_nan y); cbn [orb andb negb F32.cmp_holds];
    repeat split; destruct (F32.scaled x ?= F32.scaled y); reflexivity.
Qed.

Lemma named_comparisons_witness :
  let a := _mm256_set1_ps 0x3F800000 in
  let b := _mm256_set1_ps 0x40000000 in
  lane (Vec.ne a b) 1 = F32.one /\
  lane (Vec.gt a b) 1 = F32.zero /\
  lane (Vec.ge a b) 1 = F32.zero /\
  lane (Vec.lt a b) 1 = F32.one /\
  lane (Vec.le a b) 1 = F32.one.
Proof.
  intros a b. exact (named_comparisons a b 1 ltac:(lia)).
Defined.

(** X4. In every lane, [abs()] clears the sign bit and keeps every other
    bit: the value becomes its absolute value, a NaN stays a NaN, and
    applying [abs()] twice is applying it once. *)
Theorem abs_lanes (v : __m256) (i : nat) :
  (i < 8)%nat ->
  let x := lane v i in
  let r := lane (Vec.abs v) i in
  F32.sign_bit r = false /\
  (forall n, 0 <= n -> n <> 31 -> Z.testbit r n = Z.testbit x n) /\
  F32.is_nan r = F32.is_nan x /\
  F32.scaled r = Z.abs (F32.scaled x) /\
  lane (Vec.abs (Vec.abs v)) i = r.
Proof.
  intros Hi x r.
  assert (forall w, lane (Vec.abs w) i = Z.land (Z.lnot F32.neg_zero) (lane w i))
    as A.
  { intros w. unfold Vec.abs, _mm256_andnot_ps.
    rewrite lane_lanewise by assumption.
    unfold _mm256_set1_ps. now rewrite lane_tabulate by assumption. }
  assert (forall n, 0 <= n ->
            Z.testbit r n = if 31 =? n then false else Z.testbit x n) as B.
  { intros n Hn. unfold r. rewrite A, Z.land_spec, Z.lnot_spec by assumption.
    rewrite neg_zero_bits by assumption. fold x.
    destruct (31 =? n); reflexivity. }
  assert (F32.sign_bit r = false) as S
    by (unfold F32.sign_bit; rewrite B by lia; reflexivity).
  destruct (magnitude_agree r x) as [N M].
  { intros n Hn. rewrite B by lia. destruct (Z.eqb_spec 31 n); [lia|reflexivity]. }
  split; [exact S|]. split; [|split; [exact N|split]].
  - intros n Hn Hne. rewrite B by assumption.
    destruct (Z.eqb_spec 31 n); [lia|reflexivity].
  - unfold F32.scaled. rewrite S, M.
    pose proof (magnitude_nonneg x). destruct (F32.sign_bit x); lia.
  - unfold r. rewrite !A. now rewrite Z.land_assoc, Z.land_diag.
Qed.

Lemma abs_lanes_witness :
  F32.scaled (lane (Vec.abs (_mm256_set1_ps 0xBF800000)) 4)
  = Z.abs (F32.scaled 0xBF800000).
Proof.
  destruct (abs_lanes (_mm256_set1_ps 0xBF800000) 4 ltac:(lia))
    as (_ & _ & _ & H & _).
  exact H.
Defined.

(** X5. In every lane, [neg()] flips the sign bit and keeps every other
    bit: the value is negated (a zero changes sign), a NaN stays a NaN, and
    negating twice gives the lane back. *)
Theorem neg_lanes (v : __m256) (i : nat) :
  (i < 8)%nat ->
  let x := lane v i in
  let r := lane (Vec.neg v) i in
  F32.sign_bit r = negb (F32.sign_bit x) /\
  (forall n, 0 <= n -> n <> 31 -> Z.testbit r n = Z.testbit x n) /\
  F32.is_nan r = F32.is_nan x /\
  F32.scaled r = - F32.scaled x /\
  lane (Vec.neg (Vec.neg v)) i = x.
Proof.
  intros Hi x r.
  assert (forall w, lane (Vec.neg w) i = Z.lxor F32.neg_zero (lane w i)) as A.
  { intros w. unfold Vec.neg, _mm256_xor_ps.
    rewrite lane_lanewise by assumption.
    unfold _mm256_set1_ps. now rewrite lane_tabulate by assumption. }
  assert (forall n, 0 <= n ->
            Z.testbit r n
            = if 31 =? n then negb (Z.testbit x n) else Z.testbit x n) as B.
  { intros n Hn. unfold r. rewrite A, Z.lxor_spec.
    rewrite neg_zero_bits by assumption. fold x.
    destruct (31 =? n); reflexivity. }
  assert (F32.sign_bit r = negb (F32.sign_bit x)) as S
    by (unfold F32.sign_bit; rewrite B by lia; reflexivity).
  destruct (magnitude_agree r x) as [N M].
  { intros n Hn. rewrite B by lia. destruct (Z.eqb_spec 31 n); [lia|reflexivity]. }
  split; [exact S|]. split; [|split; [exact N|split]].
  - intros n Hn Hne. rewrite B by assumption.
    destruct (Z.eqb_spec 31 n); [lia|reflexivity].
  - unfold F32.scaled. rewrite S, M. destruct (F32.sign_bit x); cbn [negb]; lia.
  - unfold x. rewrite !A.
    now rewrite <- Z.lxor_assoc, Z.lxor_nilpotent, Z.lxor_0_l.
Qed.

Lemma neg_lanes_witness :
  F32.scaled (lane (Vec.neg (_mm256_set1_ps 0x3F800000)) 0)
  = - F32.scaled 0x3F800000.
Proof.
  destruct (neg_lanes (_mm256_set1_ps 0x3F800000) 0 ltac:(lia))
    as (_ & _ & _ & H & _).
  exact H.
Defined.

(** X6. In every lane, [angle()] is the NaN constant for a NaN, [pi] for a
    negative value and [+0.0f] otherwise, a negative zero included. *)
Theorem angle_lanes (pi NAN : Z) (v : __m256) (i : nat) :
  (i < 8)%nat ->
  let x := lane v i in
  lane (Vec.angle pi NAN v) i =
    if F32.is_nan x then NAN
    else if F32.scaled x <? 0 then pi else F32.zero.
Proof.
  intros Hi x. unfold Vec.angle, _mm256_blendv_ps, _mm256_cmp_ps.
  rewrite !lane_tabulate, !lane_lanewise by assumption.
  unfold _mm256_set1_ps. rewrite !lane_tabulate by assumption. fold x.
  rewrite (cmp_lane F32._CMP_EQ_OQ x x), (cmp_lane F32._CMP_LT_OQ x F32.zero).
  change (F32.is_nan F32.zero) with false.
  change (F32.scaled F32.zero) with 0.
  rewrite orb_diag, orb_false_r, Z.compare_refl.
  destruct (F32.is_nan x); cbn [F32.cmp_holds].
  - reflexivity.
  - change (Z.testbit (F32.cmp F32._CMP_EQ_OQ F32.all_ones F32.zero) 31)
      with false. cbv iota.
    unfold Z.ltb. destruct (F32.scaled x ?= 0); reflexivity.
Qed.

Lemma angle_lanes_witness :
  lane (Vec.angle 0x40490FDB 0x7FC00000
          (_mm256_setr_ps 0x3F800000 0xBF800000 0x80000000 0x7FC00001
                          0 0 0 0)) 1 = 0x40490FDB.
Proof.
  exact (angle_lanes 0x40490FDB 0x7FC00000
           (_mm256_setr_ps 0x3F800000 0xBF800000 0x80000000 0x7FC00001
                           0 0 0 0) 1 ltac:(lia)).
Defined.

(** X7. In every lane of [clamp(a, lo, hi)]: a NaN in [a] comes out
    unchanged; with three numbers the value is [min(hi, max(lo, a))] and the
    lane is one of the three operands; a bound that is a NaN does not
    clamp. *)
Theorem clamp_lanes (a lo hi : __m256) (i : nat) :
  (i < 8)%nat ->
  let x := lane a i in
  let l := lane lo i in
  let h := lane hi i in
  let r := lane (Vec.clamp a lo hi) i in
  (F32.is_nan x = true -> r = x) /\
  (F32.is_nan x = false -> F32.is_nan l = false -> F32.is_nan h = false ->
     F32.scaled r = Z.min (F32.scaled h) (Z.max (F32.scaled l) (F32.scaled x)) /\
     (r = x \/ r = l \/ r = h)) /\
  (F32.is_nan x = false -> F32.is_nan l = true -> F32.is_nan h = false ->
     F32.scaled r = Z.min (F32.scaled h) (F32.scaled x)) /\
  (F32.is_nan x = false -> F32.is_nan l = false -> F32.is_nan h = true ->
     F32.scaled r = Z.max (F32.scaled l) (F32.scaled x)) /\
  (F32.is_nan x = false -> F32.is_nan l = true -> F32.is_nan h = true ->
     r = x).
Proof.
  intros Hi x l h r.
  assert (r = F32.min h (F32.max l x)) as ->.
  { unfold r, Vec.clamp, _mm256_min_ps, _mm256_max_ps.
    now rewrite !lane_lanewise by assumption. }
  repeat split.
  - intros Nx. rewrite (max_unordered l x) by (rewrite Nx; apply orb_true_r).
    apply min_unordered. rewrite Nx. apply orb_true_r.
  - rewrite (max_lane l x) by assumption.
    destruct (Z.ltb_spec (F32.scaled x) (F32.scaled l));
      rewrite min_lane by assumption;
      match goal with
      | |- context [if ?a <? ?b then _ else _] => destruct (Z.ltb_spec a b)
      end; lia.
  - rewrite (max_lane l x) by assumption.
    destruct (Z.ltb_spec (F32.scaled x) (F32.scaled l));
      rewrite min_lane by assumption;
      match goal with
      | |- context [if ?a <? ?b then _ else _] => destruct (Z.ltb_spec a b)
      end; auto.
  - intros Nx Nl Nh.
    rewrite (max_unordered l x) by (rewrite Nl; reflexivity).
    rewrite min_lane by assumption.
    destruct (Z.ltb_spec (F32.scaled h) (F32.scaled x)); lia.
  - intros Nx Nl Nh.
    rewrite (min_unordered h) by (rewrite Nh; reflexivity).
    rewrite max_lane by assumption.
    destruct (Z.ltb_spec (F32.scaled x) (F32.scaled l)); lia.
  - intros Nx Nl Nh.
    rewrite (max_unordered l x) by (rewrite Nl; reflexivity).
    apply min_unordered. rewrite Nh. reflexivity.
Qed.

Lemma clamp_lanes_witness :
  let a := _mm256_set1_ps 0x40400000 in
  let lo := _mm256_set1_ps 0x3F800000 in
  let hi := _mm256_set1_ps 0x40000000 in
  F32.scaled (lane (Vec.clamp a lo hi) 6)
  = Z.min (F32.scaled 0x40000000)
          (Z.max (F32.scaled 0x3F800000) (F32.scaled 0x40400000)).
Proof.
  intros a lo hi.
  destruct (clamp_lanes a lo hi 6 ltac:(lia)) as (_ & H & _).
  destruct (H eq_refl eq_refl eq_refl) as [E _]. exact E.
Defined.

(** X8. In every lane, [clamp_max(a, max)] is [a] when [a] or [max] is a
    NaN and otherwise the smaller of the two; [clamp_min(a, min)] is [a]
    when [a] or [min] is a NaN and otherwise the larger of the two. *)
Theorem clamp_max_min_lanes (a bound : __m256) (i : nat) :
  (i < 8)%nat ->
  let x := lane a i in
  let b := lane bound i in
  let rmax := lane (Vec.clamp_max a bound) i in
  let rmin := lane (Vec.clamp_min a bound) i in
  (F32.is_nan x || F32.is_nan b = true -> rmax = x /\ rmin = x) /\
  (F32.is_nan x || F32.is_nan b = false ->
     rmax = (if F32.scaled b <? F32.scaled x then b else x) /\
     F32.scaled rmax = Z.min (F32.scaled b) (F32.scaled x) /\
     rmin = (if F32.scaled x <? F32.scaled b then b else x) /\
     F32.scaled rmin = Z.max (F32.scaled b) (F32.scaled x)).
Proof.
  intros Hi x b rmax rmin.
  assert (rmax = F32.min b x) as ->
    by (unfold rmax, Vec.clamp_max, _mm256_min_ps;
        now rewrite lane_lanewise by assumption).
  assert (rmin = F32.max b x) as ->
    by (unfold rmin, Vec.clamp_min, _mm256_max_ps;
        now rewrite lane_lanewise by assumption).
  split; intros N.
  - rewrite orb_comm in N. split; [apply min_unordered|apply max_unordered];
      exact N.
  - apply orb_false_iff in N as [Nx Nb].
    rewrite min_lane, max_lane by assumption.
    destruct (Z.ltb_spec (F32.scaled b) (F32.scaled x));
    destruct (Z.ltb_spec (F32.scaled x) (F32.scaled b));
      repeat split; lia.
Qed.

Lemma clamp_max_min_lanes_witness :
  let a := _mm256_set1_ps 0x40400000 in
  let b := _mm256_set1_ps 0x3F800000 in
  lane (Vec.clamp_max a b) 0 = 0x3F800000 /\
  lane (Vec.clamp_min a b) 0 = 0x40400000.
Proof.
  intros a b.
  destruct (clamp_max_min_lanes a b 0 ltac:(lia)) as [_ H].
  destruct (H eq_refl) as (E1 & _ & E2 & _).
  split; [exact E1 | exact E2].
Defined.

(* ================================================================== *)
(** * The scalar fallback *)
(* ================================================================== *)

Lemma le_combine_4 y :
  le_combine [byte.of_Z y; byte.of_Z (Z.shiftr y 8);
              byte.of_Z (Z.shiftr (Z.shiftr y 8) 8);
              byte.of_Z (Z.shiftr (Z.shiftr (Z.shiftr y 8) 8) 8)]
  = y mod 2 ^ 32.
Proof. exact (le_combine_split 4 y). Qed.

(** X9. [map(f)] applies [f] to each lane: lane [i] of the result is [f] of
    lane [i], both taken as 32-bit patterns, whatever the local array held
    before. *)
Theorem map_lanes (uninit : nat -> byte) (f : Z -> Z) (v : __m256) (i : nat) :
  (i < 8)%nat ->
  lane (Vec.map uninit f v) i = f (lane v i mod 2 ^ 32) mod 2 ^ 32 /\
  (F32.wf (lane v i) -> F32.wf (f (lane v i)) ->
   lane (Vec.map uninit f v) i = f (lane v i)).
Proof.
  intros Hi.
  assert (lane (Vec.map uninit f v) i = f (lane v i mod 2 ^ 32) mod 2 ^ 32)
    as E.
  { destruct v as [x0 x1 x2 x3 x4 x5 x6 x7].
    enum_nat i;
      cbv - [le_combine byte.of_Z Z.shiftr Z.modulo Z.pow];
      rewrite !le_combine_4; reflexivity. }
  split; [exact E|]. intros W Wf. rewrite E.
  unfold F32.wf in *. now rewrite (Z.mod_small (lane v i)), Z.mod_small.
Qed.

Lemma map_lanes_witness :
  lane (Vec.map (fun _ => Byte.xff) (fun x => Z.lxor x 0x80000000)
          (_mm256_set1_ps 0x3F800000)) 7
  = Z.lxor (0x3F800000 mod 2 ^ 32) 0x80000000 mod 2 ^ 32.
Proof.
  destruct (map_lanes (fun _ => Byte.xff) (fun x => Z.lxor x 0x80000000)
              (_mm256_set1_ps 0x3F800000) 7 ltac:(lia)) as [E _].
  exact E.
Defined.

(** X10. [igamma(x)] and [igammac(x)] apply their scalar function to lane
    [i] of the receiver and lane [i] of [x], for every lane. *)
Theorem igamma_lanes (u ux : nat -> byte) (calc : Z -> Z -> Z)
    (v x : __m256) (i : nat) :
  (i < 8)%nat ->
  lane (Vec.igamma u ux calc v x) i
    = calc (lane v i mod 2 ^ 32) (lane x i mod 2 ^ 32) mod 2 ^ 32 /\
  lane (Vec.igammac u ux calc v x) i
    = calc (lane v i mod 2 ^ 32) (lane x i mod 2 ^ 32) mod 2 ^ 32.
Proof.
  intros Hi.
  destruct v as [x0 x1 x2 x3 x4 x5 x6 x7].
  destruct x as [y0 y1 y2 y3 y4 y5 y6 y7].
  enum_nat i;
    (split;
     cbv - [le_combine byte.of_Z Z.shiftr Z.modulo Z.pow];
     rewrite !le_combine_4; reflexivity).
Qed.

Lemma igamma_lanes_witness :
  lane (Vec.igamma (fun _ => Byte.x00) (fun _ => Byte.x00) Z.land
          (_mm256_set1_ps 0x3F800000) (_mm256_set1_ps 0x40000000)) 2
  = Z.land (0x3F800000 mod 2 ^ 32) (0x40000000 mod 2 ^ 32) mod 2 ^ 32.
Proof.
  destruct (igamma_lanes (fun _ => Byte.x00) (fun _ => Byte.x00) Z.land
              (_mm256_set1_ps 0x3F800000) (_mm256_set1_ps 0x40000000) 2
              ltac:(lia)) as [E _].
  exact E.
Defined.

(* ================================================================== *)
(** * store followed by loadu *)
(* ================================================================== *)

Lemma read_bytes_of_nth bs : forall m p,
  (forall k, (k < List.length bs)%nat ->
     m (p + Z.of_nat k) = Some (nth k bs Byte.x00)) ->
  read_bytes m p (List.length bs) = Some bs.
Proof.
  induction bs as [|b bs IH]; intros m p H; cbn [List.length read_bytes];
    [reflexivity|].
  pose proof (H 0%nat ltac:(cbn [List.length]; lia)) as H0.
  cbn [nth Z.of_nat] in H0. rewrite Z.add_0_r in H0. rewrite H0.
  rewrite (IH m (p + 1)); [reflexivity|].
  intros k Hk. specialize (H (Datatypes.S k) ltac:(cbn [List.length]; lia)).
  cbn [nth] in H. rewrite <- H. f_equal. lia.
Qed.

Lemma stored_prefix_lanes (v : __m256) (count : Z) (i : nat) :
  0 <= count <= 8 -> (i < 8)%nat ->
  let bs := firstn (Z.to_nat (count * sizeof_float)) (m256_to_bytes v) in
  lane (m256_of_bytes (bs ++ skipn (List.length bs) (repeat Byte.x00 32))) i
  = if Z.of_nat i <? count then lane v i mod 2 ^ 32 else 0.
Proof.
  intros Hc Hi.
  assert (count = 0 \/ count = 1 \/ count = 2 \/ count = 3 \/ count = 4 \/
          count = 5 \/ count = 6 \/ count = 7 \/ count = 8) as C by lia.
  destruct v as [x0 x1 x2 x3 x4 x5 x6 x7].
  destruct C as [->|[->|[->|[->|[->|[->|[->|[->| ->]]]]]]]];
    enum_nat i;
    cbv - [le_combine byte.of_Z Z.shiftr Z.modulo Z.pow];
    rewrite ?le_combine_4; reflexivity.
Qed.

(** X11. For [count] in [0, 8] and an accessible destination:
    [store(buf, count)] followed by [loadu(buf, count)] gives back lanes
    [0, count) of the register and zero in the other lanes, and the store
    changes no byte outside the [4 * count] it writes. *)
Theorem store_loadu_roundtrip (u1 u2 : nat -> byte) (v : __m256) (m : mem)
    (buf count : Z) :
  0 <= count <= 8 ->
  mapped m buf (count * sizeof_float) ->
  exists m' w,
    Vec.store u1 v m buf count = Some m' /\
    (forall a, ~ (buf <= a < buf + count * sizeof_float) -> m' a = m a) /\
    Vec.loadu u2 m' buf count = Some w /\
    forall i, (i < 8)%nat ->
      lane w i = if Z.of_nat i <? count then lane v i mod 2 ^ 32 else F32.zero.
Proof.
  intros Hc Hmap.
  set (n := Z.to_nat (count * sizeof_float)).
  set (bs := firstn n (m256_to_bytes v)).
  assert (List.length bs = n) as Lbs.
  { unfold bs. apply firstn_length_le.
    change (List.length (m256_to_bytes v)) with 32%nat.
    unfold n, sizeof_float. lia. }
  assert (Z.of_nat n = count * sizeof_float) as Hn
    by (unfold n, sizeof_float; lia).
  destruct (write_bytes_spec bs m buf) as (m' & W & S);
    [now rewrite Lbs, Hn|].
  rewrite Lbs, Hn in S.
  exists m', (m256_of_bytes (bs ++ skipn (List.length bs) (repeat Byte.x00 32))).
  split; [|split; [|split]].
  - rewrite store_bytes by assumption. exact W.
  - intros a Ha. rewrite S.
    destruct (Z.leb_spec buf a);
      destruct (Z.ltb_spec a (buf + count * sizeof_float));
      cbn [andb]; try reflexivity. lia.
  - rewrite loadu_bytes by assumption. fold n. rewrite <- Lbs.
    rewrite (read_bytes_of_nth bs m' buf); [reflexivity|].
    intros k Hk. rewrite S.
    destruct (Z.leb_spec buf (buf + Z.of_nat k)); [|lia].
    destruct (Z.ltb_spec (buf + Z.of_nat k) (buf + count * sizeof_float));
      [|lia].
    cbn [andb]. f_equal. f_equal. lia.
  - intros i Hi. apply (stored_prefix_lanes v count i Hc Hi).
Qed.

Lemma store_loadu_roundtrip_witness :
  exists m' w,
    Vec.store (fun _ => Byte.xff) (_mm256_setr_ps 10 11 12 13 14 15 16 17)
      example_buffers 100 3 = Some m' /\
    Vec.loadu (fun _ => Byte.xff) m' 100 3 = Some w /\
    lane w 2 = 12 mod 2 ^ 32 /\ lane w 3 = 0.
Proof.
  destruct (store_loadu_roundtrip (fun _ => Byte.xff) (fun _ => Byte.xff)
              (_mm256_setr_ps 10 11 12 13 14 15 16 17) example_buffers 100 3)
    as (m' & w & St & _ & Ld & L).
  - lia.
  - apply example_buffers_mapped. now right.
  - exists m', w. repeat split; auto.
    + exact (L 2%nat ltac:(lia)).
    + exact (L 3%nat ltac:(lia)).
Defined.

(* ================================================================== *)
(** * More about the transpose *)
(* ================================================================== *)

(** X12. For a block of at most 8x8 with accessible source and destination
    cells and [ld_dst >= M], [transpose_mxn_8x8] finishes with the block
    transposed, although source and destination may overlap (all rows are
    loaded before any is stored); it changes no float outside the [M x N]
    destination cells and leaves the set of accessible bytes as it was. *)
Theorem transpose_mxn_8x8_block (uninit : nat -> __m256) (m : mem)
    (src ld_src dst ld_dst M N : Z) :
  0 <= M <= 8 -> 0 <= N <= 8 -> M <= ld_dst ->
  (forall i j, 0 <= i < M -> 0 <= j < N ->
     mapped m (index src (i * ld_src + j)) 4) ->
  (forall i j, 0 <= i < M -> 0 <= j < N ->
     mapped m (index dst (j * ld_dst + i)) 4) ->
  exists m',
    Transpose.transpose_mxn_8x8 uninit m src ld_src dst ld_dst M N = Ok m' tt /\
    (forall a, m' a = None <-> m a = None) /\
    (forall q,
       (forall i j, 0 <= i < M -> 0 <= j < N ->
          cell_disjoint (index dst (j * ld_dst + i)) q) ->
       load_f32 m' q = load_f32 m q) /\
    (forall i j, 0 <= i < M -> 0 <= j < N ->
       exists x,
         load_f32 m (index src (i * ld_src + j)) = Some x /\
         load_f32 m' (index dst (j * ld_dst + i)) = Some x).
Proof.
  intros HM HN Hld Hsrc Hdst.
  destruct (kernel_spec uninit m src ld_src dst ld_dst M N)
    as (m' & K & D & F & V); auto.
  { intros i j Hi Hj. apply load_f32_mapped. auto. }
  exists m'. repeat split; auto; try apply D.
  intros i j Hi Hj.
  destruct (load_f32 m (index src (i * ld_src + j))) as [x|] eqn:L.
  - exists x. split; [reflexivity|]. rewrite <- L. apply V; auto.
  - exfalso. revert L. apply load_f32_mapped. auto.
Qed.

(** The 3x3 block at the start of the example source, transposed in place. *)
Lemma transpose_mxn_8x8_block_witness :
  exists m',
    Transpose.transpose_mxn_8x8 (fun _ => _mm256_setzero_ps) example_10x3
      1000 3 1000 3 3 3 = Ok m' tt /\
    forall i j, 0 <= i < 3 -> 0 <= j < 3 ->
      load_f32 m' (index 1000 (j * 3 + i)) = Some (F32.of_Z (i * 3 + j)).
Proof.
  destruct (transpose_mxn_8x8_block (fun _ => _mm256_setzero_ps) example_10x3
              1000 3 1000 3 3 3) as (m' & E & _ & _ & H).
  - lia.
  - lia.
  - lia.
  - intros i j Hi Hj. apply example_10x3_mapped.
    unfold index, sizeof_float. lia.
  - intros i j Hi Hj. apply example_10x3_mapped.
    unfold index, sizeof_float. lia.
  - exists m'. split; [exact E|]. intros i j Hi Hj.
    destruct (H i j Hi Hj) as (x & L & L').
    rewrite example_10x3_source in L by lia.
    rewrite L'. exact (eq_sym L).
Defined.

(** X13. Transposing an [M x N] block (at most 8x8) into [dst] and then
    transposing [dst] as an [N x M] block into [back] makes [back] hold the
    source block; [back] may be the source itself. *)
Theorem transpose_mxn_8x8_twice (u1 u2 : nat -> __m256) (m : mem)
    (src ld_src dst ld_dst back ld_back M N : Z) :
  0 <= M <= 8 -> 0 <= N <= 8 -> M <= ld_dst -> N <= ld_back ->
  (forall i j, 0 <= i < M -> 0 <= j < N ->
     mapped m (index src (i * ld_src + j)) 4) ->
  (forall i j, 0 <= i < M -> 0 <= j < N ->
     mapped m (index dst (j * ld_dst + i)) 4) ->
  (forall i j, 0 <= i < M -> 0 <= j < N ->
     mapped m (index back (i * ld_back + j)) 4) ->
  exists m1 m2,
    Transpose.transpose_mxn_8x8 u1 m src ld_src dst ld_dst M N = Ok m1 tt /\
    Transpose.transpose_mxn_8x8 u2 m1 dst ld_dst back ld_back N M
      = Ok m2 tt /\
    forall i j, 0 <= i < M -> 0 <= j < N ->
      exists x,
        load_f32 m (index src (i * ld_src + j)) = Some x /\
        load_f32 m2 (index back (i * ld_back + j)) = Some x.
Proof.
  intros HM HN Hld Hldb Hsrc Hdst Hback.
  destruct (kernel_spec u1 m src ld_src dst ld_dst M N)
    as (m1 & K1 & D1 & _ & V1); auto.
  { intros i j Hi Hj. apply load_f32_mapped. auto. }
  destruct (kernel_spec u2 m1 dst ld_dst back ld_back N M)
    as (m2 & K2 & _ & _ & V2); auto.
  { intros i j Hi Hj. apply load_f32_mapped.
    apply (mapped_domain m); [exact D1|]. auto. }
  { intros i j Hi Hj. apply (mapped_domain m); [exact D1|]. auto. }
  exists m1, m2. split; [exact K1|]. split; [exact K2|].
  intros i j Hi Hj.
  destruct (load_f32 m (index src (i * ld_src + j))) as [x|] eqn:L.
  - exists x. split; [reflexivity|].
    rewrite (V2 j i Hj Hi), (V1 i j Hi Hj). exact L.
  - exfalso. revert L. apply load_f32_mapped. auto.
Qed.

(** The 3x3 example block transposed into the destination area and back
    onto itself. *)
Lemma transpose_mxn_8x8_twice_witness :
  exists m1 m2,
    Transpose.transpose_mxn_8x8 (fun _ => _mm256_setzero_ps) example_10x3
      1000 3 2000 10 3 3 = Ok m1 tt /\
    Transpose.transpose_mxn_8x8 (fun _ => _mm256_setzero_ps) m1
      2000 10 1000 3 3 3 = Ok m2 tt /\
    forall i j, 0 <= i < 3 -> 0 <= j < 3 ->
      load_f32 m2 (index 1000 (i * 3 + j)) = Some (F32.of_Z (i * 3 + j)).
Proof.
  destruct (transpose_mxn_8x8_twice (fun _ => _mm256_setzero_ps)
              (fun _ => _mm256_setzero_ps) example_10x3
              1000 3 2000 10 1000 3 3 3) as (m1 & m2 & E1 & E2 & H).
  - lia.
  - lia.
  - lia.
  - lia.
  - intros i j Hi Hj. apply example_10x3_mapped.
    unfold index, sizeof_float. lia.
  - intros i j Hi Hj. apply example_10x3_mapped.
    unfold index, sizeof_float. lia.
  - intros i j Hi Hj. apply example_10x3_mapped.
    unfold index, sizeof_float. lia.
  - exists m1, m2. split; [exact E1|]. split; [exact E2|].
    intros i j Hi Hj. destruct (H i j Hi Hj) as (x & L & L').
    rewrite example_10x3_source in L by lia.
    rewrite L'. exact (eq_sym L).
Defined.

(** X14. Under the conditions of the tiled transpose, [transpose_mxn]
    changes no float that lies outside the destination cells, the source
    block included, and leaves the set of accessible bytes as it was. *)
Theorem transpose_mxn_frame (uninit : nat -> __m256) (m : mem)
    (src ld_src dst ld_dst M N : Z) :
  0 <= M -> 0 <= N -> M <= ld_dst ->
  (forall i j, 0 <= i < M -> 0 <= j < N ->
     mapped m (index src (i * ld_src + j)) 4) ->
  (forall i j, 0 <= i < M -> 0 <= j < N ->
     mapped m (index dst (j * ld_dst + i)) 4) ->
  (forall i j i' j',
     0 <= i < M -> 0 <= j < N -> 0 <= i' < M -> 0 <= j' < N ->
     cell_disjoint (index dst (j' * ld_dst + i')) (index src (i * ld_src + j))) ->
  exists m',
    Transpose.transpose_mxn uninit m src ld_src dst ld_dst M N = Ok m' tt /\
    (forall a, m' a = None <-> m a = None) /\
    (forall q,
       (forall i j, 0 <= i < M -> 0 <= j < N ->
          cell_disjoint (index dst (j * ld_dst + i)) q) ->
       load_f32 m' q = load_f32 m q) /\
    (forall i j, 0 <= i < M -> 0 <= j < N ->
       load_f32 m' (index src (i * ld_src + j))
       = load_f32 m (index src (i * ld_src + j))).
Proof.
  intros HM HN Hld Hsrc Hdst Hapart.
  destruct (transpose_mxn_tiles uninit m src ld_src dst ld_dst M N)
    as (m' & E & D & F & _); auto.
  { intros i j Hi Hj. apply load_f32_mapped. auto. }
  exists m'. split; [exact E|]. split; [exact D|]. split; [exact F|].
  intros i j Hi Hj. apply F. intros i' j' Hi' Hj'. apply Hapart; assumption.
Qed.

Lemma transpose_mxn_frame_witness :
  exists m',
    Transpose.transpose_mxn (fun _ => _mm256_setzero_ps) example_10x3
      1000 3 2000 10 10 3 = Ok m' tt /\
    forall i j, 0 <= i < 10 -> 0 <= j < 3 ->
      load_f32 m' (index 1000 (i * 3 + j)) = Some (F32.of_Z (i * 3 + j)).
Proof.
  destruct (transpose_mxn_frame (fun _ => _mm256_setzero_ps) example_10x3
              1000 3 2000 10 10 3) as (m' & E & _ & _ & H).
  - lia.
  - lia.
  - lia.
  - intros i j Hi Hj. apply example_10x3_mapped.
    unfold index, sizeof_float. lia.
  - intros i j Hi Hj. apply example_10x3_mapped.
    unfold index, sizeof_float. lia.
  - intros i j i' j' Hi Hj Hi' Hj'.
    unfold cell_disjoint, index, sizeof_float. lia.
  - exists m'. split; [exact E|]. intros i j Hi Hj.
    rewrite H by assumption. now apply example_10x3_source.
Defined.

Lemma kernel_no_columns uninit m src ld_src dst ld_dst M :
  0 <= M <= 8 ->
  Transpose.transpose_mxn_8x8 uninit m src ld_src dst ld_dst M 0 = Ok m tt.
Proof.
  intros H.
  assert (M = 0 \/ M = 1 \/ M = 2 \/ M = 3 \/ M = 4 \/ M = 5 \/ M = 6 \/
          M = 7 \/ M = 8) as C by lia.
  destruct C as [->|[->|[->|[->|[->|[->|[->|[->| ->]]]]]]]]; reflexivity.
Qed.

Lemma kernel_no_rows uninit m src ld_src dst ld_dst N :
  0 <= N <= 8 ->
  Transpose.transpose_mxn_8x8 uninit m src ld_src dst ld_dst 0 N = Ok m tt.
Proof.
  intros H.
  assert (N = 0 \/ N = 1 \/ N = 2 \/ N = 3 \/ N = 4 \/ N = 5 \/ N = 6 \/
          N = 7 \/ N = 8) as C by lia.
  destruct C as [->|[->|[->|[->|[->|[->|[->|[->| ->]]]]]]]]; reflexivity.
Qed.

(** X15. A block with no rows or no columns makes [transpose_mxn_8x8]
    touch no memory: the call finishes on any memory, accessible or not,
    and returns it as it was. *)
Theorem transpose_mxn_8x8_empty (uninit : nat -> __m256) (m : mem)
    (src ld_src dst ld_dst M N : Z) :
  (M = 0 /\ 0 <= N <= 8) \/ (N = 0 /\ 0 <= M <= 8) ->
  Transpose.transpose_mxn_8x8 uninit m src ld_src dst ld_dst M N = Ok m tt.
Proof.
  intros [[-> H]|[-> H]]; [apply kernel_no_rows | apply kernel_no_columns];
    exact H.
Qed.

Lemma transpose_mxn_8x8_empty_witness :
  Transpose.transpose_mxn_8x8 (fun _ => _mm256_setzero_ps) (fun _ => None)
    64 5 128 5 0 5 = Ok (fun _ => None) tt.
Proof.
  apply transpose_mxn_8x8_empty. left. split; [reflexivity | lia].
Defined.

Lemma for_step8_idle (body : Z -> mem -> result mem unit) K fuel :
  (forall i m, body i m = Ok m tt) ->
  forall k m, 0 <= k <= K -> (Z.to_nat (K - k) <= fuel)%nat ->
  Transpose.for_step8 fuel (8 * k) (8 * K) body m = Ok m (8 * K).
Proof.
  intros Hb. induction fuel as [|fuel IH]; intros k m Hk Hf.
  - assert (k = K) as -> by lia. cbn [Transpose.for_step8].
    now rewrite Z.ltb_irrefl.
  - cbn [Transpose.for_step8].
    destruct (Z.ltb_spec (8 * k) (8 * K)).
    + rewrite Hb. cbn [bind].
      replace (8 * k + 8) with (8 * (k + 1)) by lia. apply IH; lia.
    + now assert (k = K) as -> by lia.
Qed.

(** X16. With [M <= 0] or [N = 0] the tiled transpose touches no memory:
    [transpose_mxn] finishes on any memory and returns it as it was. *)
Theorem transpose_mxn_empty (uninit : nat -> __m256) (m : mem)
    (src ld_src dst ld_dst M N : Z) :
  M <= 0 \/ N = 0 ->
  Transpose.transpose_mxn uninit m src ld_src dst ld_dst M N = Ok m tt.
Proof.
  intros H. unfold Transpose.transpose_mxn. cbv zeta.
  destruct (Z_le_gt_dec M 0) as [HM|HM].
  - assert (Z.quot M 8 * 8 <= 0) as Q.
    { assert (Z.quot M 8 <= Z.quot 0 8) by (apply Z.quot_le_mono; lia).
      change (Z.quot 0 8) with 0 in *. lia. }
    assert (Z.to_nat M = 0%nat) as -> by lia.
    cbn [Transpose.for_step8].
    destruct (Z.ltb_spec 0 (Z.quot M 8 * 8)); [lia|]. cbn [bind].
    destruct (Z.gtb_spec (M - 0) 0); [lia|reflexivity].
  - destruct H as [H| ->]; [lia|].
    pose proof (Z.div_mod M 8 ltac:(lia)) as DM.
    pose proof (Z.mod_pos_bound M 8 ltac:(lia)) as MB.
    pose proof (Z.div_pos M 8 ltac:(lia) ltac:(lia)) as DP.
    rewrite (quot8 M) by lia.
    match goal with
    | |- context [Transpose.for_step8 _ 0 _ ?b m] =>
        pose proof (for_step8_idle b (M / 8) (Z.to_nat M)
                      (fun _ _ => eq_refl) 0 m) as L
    end.
    change (8 * 0) with 0 in L. rewrite L by lia. clear L.
    cbn [bind].
    destruct (Z.gtb_spec (M - 8 * (M / 8)) 0); [|reflexivity].
    change (Z.to_nat 0) with 0%nat. change (Z.quot 0 8 * 8) with 0.
    cbn [Transpose.for_step8]. rewrite Z.ltb_irrefl. cbn [bind].
    change (0 - 0) with 0. apply kernel_no_columns. lia.
Qed.

Lemma transpose_mxn_empty_witness :
  Transpose.transpose_mxn (fun _ => _mm256_setzero_ps) (fun _ => None)
    64 0 128 13 13 0 = Ok (fun _ => None) tt.
Proof. apply transpose_mxn_empty. right. reflexivity. Defined.

(* ================================================================== *)
(** * [convert]: the copy of [n] floats *)
(* ================================================================== *)

Section Convert.

Variables (m0 : mem) (src dst n : Z).
Hypothesis Hsrc : mapped m0 src (4 * n).
Hypothesis Hdst : mapped m0 dst (4 * n).
Hypothesis Hapart : forall i j, 0 <= i < n -> 0 <= j < n ->
  cell_disjoint (index src i) (index dst j).

Let x (k : Z) : Z :=
  match load_f32 m0 (index src k) with Some v => v | None => 0 end.

Lemma cell_mapped m p k :
  (forall a, m a = None <-> m0 a = None) -> mapped m0 p (4 * n) ->
  0 <= k < n -> mapped m (index p k) 4.
Proof.
  intros D H Hk j Hj E. apply D in E. unfold index, sizeof_float in E.
  apply (H (4 * k + j)); [lia|].
  now replace (p + (4 * k + j)) with (p + 4 * k + j) by lia.
Qed.

Lemma cells_apart p k k' : k <> k' -> cell_disjoint (index p k) (index p k').
Proof. unfold cell_disjoint, index, sizeof_float. lia. Qed.

Lemma source_x k : 0 <= k < n ->
  load_f32 m0 (index src k) = Some (x k) /\ 0 <= x k < 2 ^ 32.
Proof.
  intros Hk. unfold x.
  destruct (load_f32 m0 (index src k)) as [v|] eqn:E.
  - split; [reflexivity|]. exact (load_f32_range _ _ _ E).
  - exfalso. revert E. apply load_f32_mapped.
    apply cell_mapped; [reflexivity|exact Hsrc|exact Hk].
Qed.

Lemma copied_init : copied m0 src dst n m0 0.
Proof. repeat split; auto. intros; lia. Qed.

Lemma copied_source m c k :
  copied m0 src dst n m c -> 0 <= k < n ->
  load_f32 m (index src k) = Some (x k).
Proof.
  intros (_ & F & _) Hk. rewrite F; [now apply source_x|].
  intros j Hj. destruct (Hapart k j Hk Hj) as [A|A]; [right|left]; exact A.
Qed.

(** Storing the next [w] source values keeps the invariant. *)
Lemma copy_step m c w :
  copied m0 src dst n m c -> 0 <= c -> c + Z.of_nat w <= n ->
  exists m',
    store_list m
      (List.map (fun i => (index dst (c + Z.of_nat i), x (c + Z.of_nat i)))
         (seq 0 w)) = Some m' /\
    copied m0 src dst n m' (c + Z.of_nat w).
Proof.
  intros (D & F & W) Hc Hw.
  set (cells := List.map _ _).
  assert (forall p v, In (p, v) cells ->
            exists i, 0 <= i < Z.of_nat w /\ p = index dst (c + i) /\
                      v = x (c + i)) as IN.
  { intros p v Hin. apply in_map_iff in Hin. destruct Hin as (i & E & Hi).
    apply in_seq in Hi. inversion E. exists (Z.of_nat i).
    repeat split; lia. }
  destruct (store_list_spec cells m) as (m' & SL & D' & F' & W').
  { intros p v Hin. destruct (IN p v Hin) as (i & Hi & -> & _).
    apply cell_mapped; [exact D|exact Hdst|lia]. }
  exists m'. split; [exact SL|]. split; [|split].
  - intros a. rewrite D'. apply D.
  - intros q Hq. rewrite F'; [now apply F|].
    intros p v Hin. destruct (IN p v Hin) as (i & Hi & -> & _).
    apply Hq. lia.
  - intros k Hk. destruct (Z.lt_ge_cases k c) as [Lt|Ge].
    + rewrite F'; [apply W; lia|].
      intros p v Hin. destruct (IN p v Hin) as (i & Hi & -> & _).
      apply cells_apart. lia.
    + destruct (source_x k) as [Ek Rk]; [lia|].
      rewrite Ek, <- (Z.mod_small (x k) (2 ^ 32)) by exact Rk.
      apply W'.
      * apply in_map_iff. exists (Z.to_nat (k - c)). split.
        -- now replace (c + Z.of_nat (Z.to_nat (k - c))) with k by lia.
        -- apply in_seq. lia.
      * intros p v Hin. destruct (IN p v Hin) as (i & Hi & -> & ->).
        destruct (Z.eq_dec (c + i) k) as [->|Ne]; [now left|right].
        now apply cells_apart.
Qed.

Lemma vector_step m c :
  copied m0 src dst n m c -> 0 <= c -> c + 8 <= n ->
  exists v m',
    _mm256_loadu_ps m (index src c) = Some v /\
    _mm256_storeu_ps m (index dst c) v = Some m' /\
    copied m0 src dst n m' (c + 8).
Proof.
  intros C Hc Hn.
  destruct (copy_step m c 8 C Hc) as (m' & SL & C'); [lia|].
  exists (tabulate (fun j => x (c + Z.of_nat j))), m'.
  split; [|split].
  - rewrite loadu_ps_lanes. unfold option_tabulate.
    rewrite !index_index, !(copied_source m c) by (exact C || lia).
    reflexivity.
  - rewrite storeu_ps_lanes, <- SL. cbn [seq List.map].
    now rewrite !index_index.
  - exact C'.
Qed.

Lemma scalar_step m c :
  copied m0 src dst n m c -> 0 <= c < n ->
  exists m',
    load_f32 m (index src c) = Some (x c) /\
    store_f32 m (index dst c) (x c) = Some m' /\
    copied m0 src dst n m' (c + 1).
Proof.
  intros C Hc.
  destruct (copy_step m c 1 C) as (m' & SL & C'); [lia|lia|].
  exists m'. split; [apply (copied_source m c); [exact C|lia]|].
  split; [|exact C'].
  cbn [seq List.map store_list] in SL. rewrite Z.add_0_r in SL.
  destruct (store_f32 m (index dst c) (x c)); [exact SL|discriminate].
Qed.

Lemma vector_loop fuel : forall c m,
  copied m0 src dst n m c -> 0 <= c <= n ->
  (Z.to_nat (n - c) <= fuel)%nat ->
  exists m' c',
    convert_vector_loop fuel src dst n c m = Ok m' c' /\
    copied m0 src dst n m' c' /\ c <= c' <= n /\ n - 8 < c'.
Proof.
  induction fuel as [|fuel IH]; intros c m C Hc Hf;
    cbn [convert_vector_loop]; unfold Vec.size, int64_min;
    (destruct (Z.ltb_spec (n - 8) (- 2 ^ 63)); [lia|]);
    destruct (Z.leb_spec c (n - 8)) as [Le|Gt];
    try (exists m, c; split; [reflexivity|]; split; [exact C|lia]).
  - lia.
  - destruct (vector_step m c C) as (v & m1 & -> & -> & C1); [lia|lia|].
    destruct (IH (c + 8) m1 C1) as (m' & c' & E & C' & R & B);
      [lia|lia|].
    exists m', c'. split; [exact E|]. split; [exact C'|lia].
Qed.

Lemma scalar_loop fuel : forall c m,
  copied m0 src dst n m c -> 0 <= c <= n ->
  (Z.to_nat (n - c) <= fuel)%nat ->
  exists m',
    convert_scalar_loop fuel src dst n c m = Ok m' tt /\
    copied m0 src dst n m' n.
Proof.
  induction fuel as [|fuel IH]; intros c m C Hc Hf;
    cbn [convert_scalar_loop];
    destruct (Z.ltb_spec c n) as [Lt|Ge];
    try (exists m; split; [reflexivity|];
         assert (c = n) by lia; now subst c).
  - lia.
  - destruct (scalar_step m c C) as (m1 & -> & -> & C1); [lia|].
    apply (IH (c + 1) m1 C1); lia.
Qed.

Lemma convert_copied : 0 <= n ->
  exists m', convert m0 src dst n = Ok m' tt /\ copied m0 src dst n m' n.
Proof.
  intros Hn. unfold convert.
  destruct (vector_loop (Z.to_nat n) 0 m0 copied_init) as
    (m1 & c & -> & C & R & _); [lia|lia|].
  cbn [bind]. apply scalar_loop; [exact C|lia|lia].
Qed.

End Convert.

(** X17. [convert(src, dst, n)] on [n >= 0] floats whose source and
    destination cells are accessible and share no byte returns normally,
    leaves in [dst[k]] the float that was in [src[k]] for every [k < n],
    and changes no float outside [dst[0 .. n-1]] and no mapping. *)
Theorem convert_copies (m : mem) (src dst n : Z) :
  0 <= n ->
  mapped m src (4 * n) -> mapped m dst (4 * n) ->
  (forall i j, 0 <= i < n -> 0 <= j < n ->
     cell_disjoint (index src i) (index dst j)) ->
  exists m',
    convert m src dst n = Ok m' tt /\
    (forall k, 0 <= k < n ->
       load_f32 m' (index dst k) = load_f32 m (index src k)) /\
    (forall q, (forall k, 0 <= k < n -> cell_disjoint (index dst k) q) ->
       load_f32 m' q = load_f32 m q) /\
    (forall a, m' a = None <-> m a = None).
Proof.
  intros Hn Hs Hd Ha.
  destruct (convert_copied m src dst n Hs Hd Ha Hn) as (m' & E & D & F & W).
  exists m'. split; [exact E|]. split; [exact W|]. split; [exact F|exact D].
Qed.

Lemma example_10x3_spans p n :
  (1000 <= p /\ p + n <= 1120) \/ (2000 <= p /\ p + n <= 2120) ->
  mapped example_10x3 p n.
Proof.
  intros H k Hk. unfold example_10x3.
  destruct (Z.leb_spec 1000 (p + k)), (Z.ltb_spec (p + k) 1120);
    cbn [andb]; try discriminate;
    destruct (Z.leb_spec 2000 (p + k)), (Z.ltb_spec (p + k) 2120);
    cbn [andb]; try discriminate; lia.
Qed.

Lemma convert_copies_witness :
  exists m',
    convert example_10x3 1000 2000 30 = Ok m' tt /\
    load_f32 m' (index 2000 29) = load_f32 example_10x3 (index 1000 29).
Proof.
  destruct (convert_copies example_10x3 1000 2000 30) as (m' & E & W & _).
  - lia.
  - apply example_10x3_spans. lia.
  - apply example_10x3_spans. lia.
  - intros i j Hi Hj. unfold cell_disjoint, index, sizeof_float. lia.
  - exists m'. split; [exact E|]. apply W. lia.
Defined.

(** A count below [int64_min + 8] makes the bound of the first loop
    overflow. *)
Lemma convert_overflow (m : mem) (src dst n : Z) :
  n < int64_min + Vec.size -> convert m src dst n = Undefined.
Proof.
  intros Hn. unfold convert.
  destruct (Z.to_nat n); cbn [convert_vector_loop];
    (destruct (Z.ltb_spec (n - Vec.size) int64_min); [reflexivity|lia]).
Qed.

(** X18. [convert] with a count [n <= 0] for which [n - size()] does not
    overflow, that is [n >= int64_min + 8], runs neither loop: it returns
    normally and leaves the memory as it was, whatever the two pointers
    are. *)
Theorem convert_nothing (m : mem) (src dst n : Z) :
  int64_min + Vec.size <= n <= 0 -> convert m src dst n = Ok m tt.
Proof.
  intros Hn. unfold convert.
  replace (Z.to_nat n) with 0%nat by lia.
  cbn [convert_vector_loop].
  destruct (Z.ltb_spec (n - Vec.size) int64_min); [lia|].
  unfold Vec.size.
  destruct (Z.leb_spec 0 (n - 8)); [lia|]. cbn [bind convert_scalar_loop].
  destruct (Z.ltb_spec 0 n); [lia|reflexivity].
Qed.

Lemma convert_nothing_witness :
  convert (fun _ => None) 0 0 (-3) = Ok (fun _ => None) tt.
Proof. apply convert_nothing. unfold int64_min, Vec.size. lia. Defined.
